(** * Duplicate-subtree extraction (component-extractor.ts)

    A shallow embedding of [src/core/figma/componentization/component-extractor.ts]
    and the properties of its candidate collection, naming, ordering and
    rewriting.

    The Babel packages the module calls are modelled as follows.
    - [@babel/types]: the AST is the inductive type [Node]; the [t.isX]
      tests are pattern matches.  Object identity of a JSX element (what
      [===] and [Array.prototype.includes] compare) is its [ref].
    - [@babel/traverse]: [traverse] lists, in Babel's pre-order, the paths
      at which a [JSXElement] visitor is called by a traversal that runs
      to its end; [scopeFailure] tells where a traversal throws instead.
    - [@babel/parser] and [@babel/generator]: parameters [parse] and
      [generate] of the development. *)

From Stdlib Require Import List String Ascii Arith Bool Lia PeanoNat.
From Stdlib Require Import Sorting.Sorted Sorting.Permutation.
From Stdlib Require Import Numbers.DecimalString Numbers.DecimalNat.
Import ListNotations.
Open Scope string_scope.
Open Scope list_scope.
Set Warnings "-register-all".

(* ================================================================= *)
(** ** The syntax tree *)

(** Identity of a node object. *)
Definition Ref := nat.

(** The name of an opening element: [JSXIdentifier], [JSXMemberExpression]
    or [JSXNamespacedName]. *)
Inductive JSXName : Type :=
| JSXIdentifier (name : string)
| JSXMemberExpression (object : JSXName) (property : string)
| JSXNamespacedName (namespace : string) (name : string).

(** Nodes.  [Opaque] stands for every statement or expression whose own
    fields the extractor never reads and at which Babel sets up no scope
    (a variable declaration, an import, an export, a call, ...): [code]
    is its text and [inner] its child nodes in traversal order (the JSX
    it contains lives there).  Of the nodes that have a scope of their
    own the tree has the function declaration, with the block that is
    its body, which is what the extractor itself builds; arrow functions,
    function expressions, classes, loops and free-standing blocks are
    left out. *)
Inductive Node : Type :=
| File (program : Node)
| Program (body : list Node)
| FunctionDeclaration (id : string) (params : list Node) (body : Node)
| BlockStatement (body : list Node)
| ReturnStatement (argument : option Node)
| Opaque (code : string) (inner : list Node)
| StringLiteral (value : string)
| JSXElementNode (e : JSXElement)
| JSXOpeningElementNode (o : JSXOpeningElement)
| JSXAttribute (name : JSXName) (value : option Node)
| JSXSpreadAttribute (argument : Node)
| JSXFragment (children : list Node)
| JSXText (value : string)
| JSXExpressionContainer (expression : Node)
| JSXSpreadChild (expression : Node)
with JSXElement : Type :=
| mkJSXElement (ref : Ref) (openingElement : JSXOpeningElement)
               (children : list Node)
with JSXOpeningElement : Type :=
| mkJSXOpeningElement (name : JSXName) (attributes : list Node)
                      (selfClosing : bool).

Definition ref (e : JSXElement) : Ref :=
  match e with mkJSXElement r _ _ => r end.
Definition openingElement (e : JSXElement) : JSXOpeningElement :=
  match e with mkJSXElement _ o _ => o end.
Definition children (e : JSXElement) : list Node :=
  match e with mkJSXElement _ _ c => c end.
Definition name (o : JSXOpeningElement) : JSXName :=
  match o with mkJSXOpeningElement n _ _ => n end.
Definition attributes (o : JSXOpeningElement) : list Node :=
  match o with mkJSXOpeningElement _ a _ => a end.
Definition selfClosing (o : JSXOpeningElement) : bool :=
  match o with mkJSXOpeningElement _ _ s => s end.

(** [a === b] on element objects. *)
Definition sameNode (a b : JSXElement) : bool := Nat.eqb (ref a) (ref b).

(** [occurrences.includes(node)]. *)
Definition includes (occurrences : list JSXElement) (node : JSXElement) : bool :=
  existsb (fun o => sameNode o node) occurrences.

(* ================================================================= *)
(** ** Paths and traversal *)

(** A path of any node: the node and the path of its parent. *)
Inductive AnyPath : Type :=
| mkAnyPath (pnode : Node) (pparent : option AnyPath).

Definition pnode (p : AnyPath) : Node :=
  match p with mkAnyPath n _ => n end.
Definition pparent (p : AnyPath) : option AnyPath :=
  match p with mkAnyPath _ q => q end.

(** [NodePath<t.JSXElement>]: what a [JSXElement] visitor receives. *)
Record NodePath : Type := mkNodePath {
  node : JSXElement;
  parentPath : option AnyPath
}.

(** The paths at which [traverse(root, { JSXElement(path) {...} })] calls
    the visitor, in order.  Babel visits a node before its children and
    the children in the order of the node's visitor keys: for a
    [JSXElement] the opening element (hence the attributes) first, then
    the children. *)
Fixpoint traverseNode (parent : option AnyPath) (n : Node) {struct n}
  : list NodePath :=
  let self := Some (mkAnyPath n parent) in
  match n with
  | File p => traverseNode self p
  | Program body => flat_map (traverseNode self) body
  | FunctionDeclaration _ params body =>
      flat_map (traverseNode self) params ++ traverseNode self body
  | BlockStatement body => flat_map (traverseNode self) body
  | ReturnStatement argument =>
      match argument with
      | Some a => traverseNode self a
      | None => []
      end
  | Opaque _ inner => flat_map (traverseNode self) inner
  | StringLiteral _ => []
  | JSXElementNode e =>
      mkNodePath e parent ::
      match e with
      | mkJSXElement _ o cs =>
          traverseOpening self o ++ flat_map (traverseNode self) cs
      end
  | JSXOpeningElementNode o => traverseOpening parent o
  | JSXAttribute _ value =>
      match value with
      | Some v => traverseNode self v
      | None => []
      end
  | JSXSpreadAttribute argument => traverseNode self argument
  | JSXFragment cs => flat_map (traverseNode self) cs
  | JSXText _ => []
  | JSXExpressionContainer expression => traverseNode self expression
  | JSXSpreadChild expression => traverseNode self expression
  end
with traverseOpening (parent : option AnyPath) (o : JSXOpeningElement)
  {struct o} : list NodePath :=
  let self := Some (mkAnyPath (JSXOpeningElementNode o) parent) in
  match o with
  | mkJSXOpeningElement _ attrs _ => flat_map (traverseNode self) attrs
  end.

(** [traverse(root, { JSXElement })].  Babel does not visit the root
    itself, and the paths of the root's children have no parent path.
    The module only ever passes a [Program]. *)
Definition traverse (root : Node) : list NodePath :=
  match root with
  | Program body => flat_map (traverseNode None) body
  | _ => traverseNode None root
  end.

(** The element a path's parent is, when the parent is a JSX element:
    [parentPath && t.isJSXElement(parentPath.node)]. *)
Definition parentElement (parentPath : option AnyPath) : option JSXElement :=
  match parentPath with
  | Some pp =>
      match pnode pp with
      | JSXElementNode e => Some e
      | _ => None
      end
  | None => None
  end.

(** The JSX elements on a path's ancestor chain, nearest first. *)
Fixpoint ancestorsOf (p : AnyPath) : list JSXElement :=
  match p with
  | mkAnyPath n q =>
      let rest := match q with Some q' => ancestorsOf q' | None => [] end in
      match n with
      | JSXElementNode e => e :: rest
      | _ => rest
      end
  end.

Definition ancestorElements (path : NodePath) : list JSXElement :=
  match parentPath path with
  | Some pp => ancestorsOf pp
  | None => []
  end.

(* ================================================================= *)
(** ** Exceptions and the scopes of a traversal *)

(** What a call does: it returns a value or throws.  An error is known
    by its text. *)
Definition Error := string.

Inductive Completion (A : Type) : Type :=
| Return (a : A)
| Throw (e : Error).

Arguments Return {A} a.
Arguments Throw {A} e.

(** Before Babel visits a path it sets up the path's scope, and for a
    node with a scope of its own it crawls that scope.  The module
    passes [traverse] a bare [Program] node, never a [File] and never a
    parent path, so the paths of the statements have no parent path and
    no path of the traversal has a program scope above it.  The crawl of
    a function declaration registers the declaration in the scope that
    encloses it; there is none, and the crawl throws this error. *)
Definition scopeError : Error :=
  "TypeError: Cannot read properties of undefined (reading 'getBlockParent')".

(** The traversal below a node reaches a function declaration: the
    node is one, or one of its children, in the places Babel visits,
    leads to one. *)
Fixpoint reachesScope (n : Node) {struct n} : bool :=
  match n with
  | File p => reachesScope p
  | Program body => existsb reachesScope body
  | FunctionDeclaration _ _ _ => true
  | BlockStatement body => existsb reachesScope body
  | ReturnStatement argument =>
      match argument with
      | Some a => reachesScope a
      | None => false
      end
  | Opaque _ inner => existsb reachesScope inner
  | StringLiteral _ => false
  | JSXElementNode (mkJSXElement _ (mkJSXOpeningElement _ attrs _) cs) =>
      existsb reachesScope attrs || existsb reachesScope cs
  | JSXOpeningElementNode (mkJSXOpeningElement _ attrs _) =>
      existsb reachesScope attrs
  | JSXAttribute _ value =>
      match value with
      | Some v => reachesScope v
      | None => false
      end
  | JSXSpreadAttribute argument => reachesScope argument
  | JSXFragment cs => existsb reachesScope cs
  | JSXText _ => false
  | JSXExpressionContainer expression => reachesScope expression
  | JSXSpreadChild expression => reachesScope expression
  end.

(** The exception of [traverse(root, visitor)] when the visitor never
    stops the traversal: it throws at the first function declaration it
    reaches, and runs to its end when there is none. *)
Definition traversalError (root : Node) : option Error :=
  if reachesScope root then Some scopeError else None.

(* ================================================================= *)
(** ** Strings *)

(** [String(n)] for a natural number: its decimal digits. *)
Definition decimal (n : nat) : string :=
  NilEmpty.string_of_uint (Nat.to_uint n).

(** [String.prototype.toLowerCase] on texts of ASCII characters, as the
    tag names of [DEFAULT_OPTIONS] and of the samples are: a letter
    [A]-[Z] becomes [a]-[z] and every other byte is kept.  (JavaScript
    also lowers the capitals outside ASCII, which are not modelled.) *)
Definition lowerAscii (c : ascii) : ascii :=
  let n := nat_of_ascii c in
  if (65 <=? n)%nat && (n <=? 90)%nat then ascii_of_nat (n + 32) else c.

Fixpoint toLowerCase (s : string) : string :=
  match s with
  | EmptyString => EmptyString
  | String c s' => String (lowerAscii c) (toLowerCase s')
  end.

(** [/^[A-Z]/.test(s)]. *)
Definition startsWithUpper (s : string) : bool :=
  match s with
  | EmptyString => false
  | String c _ =>
      let n := nat_of_ascii c in (65 <=? n)%nat && (n <=? 90)%nat
  end.

(** [Set.prototype.has] on a set of strings. *)
Definition has (set : list string) (x : string) : bool :=
  existsb (String.eqb x) set.

(** The text [@babel/generator] prints for an element name: an identifier
    as it is, a member expression with dots, a namespaced name with a
    colon. *)
Fixpoint generateName (n : JSXName) : string :=
  match n with
  | JSXIdentifier s => s
  | JSXMemberExpression object property =>
      generateName object ++ "." ++ property
  | JSXNamespacedName namespace s => namespace ++ ":" ++ s
  end.

(* ================================================================= *)
(** ** Candidates and options *)

(** [ComponentCandidate].  [example] is the first element of
    [occurrences] by array destructuring, [undefined] on an empty array. *)
Record ComponentCandidate : Type := mkComponentCandidate {
  fingerprint : string;
  occurrences : list JSXElement;
  example : option JSXElement;
  count : nat;
  suggestedName : string
}.

(** [fingerprintOptions]: passed along and never read. *)
Definition FingerprintOptions := unit.

(** [Partial<ExtractorOptions>]: every field may be absent, and a field
    that is present holds a value of its type.  The one use
    of [minRepeats] is the test [occurrences.length < minRepeats], so a
    natural number stands for the JavaScript number (a fraction compares
    like the next integer, a negative number like 0). *)
Record ExtractorOptions : Type := mkExtractorOptions {
  minRepeats_opt : option nat;
  fingerprintOptions_opt : option FingerprintOptions;
  componentNameBase_opt : option string;
  skipTags_opt : option (list string)
}.

(** [Required<ExtractorOptions>]. *)
Record RequiredOptions : Type := mkRequiredOptions {
  minRepeats : nat;
  fingerprintOptions : FingerprintOptions;
  componentNameBase : string;
  skipTags : list string
}.

Definition DEFAULT_OPTIONS : RequiredOptions := {|
  minRepeats := 2;
  fingerprintOptions := tt;
  componentNameBase := "Extracted";
  skipTags :=
    [ "svg"; "clippath"; "defs"; "ellipse"; "g"; "lineargradient"; "mask";
      "path"; "pattern"; "polygon"; "polyline"; "radialgradient"; "rect";
      "stop"; "circle"; "image"; "line"; "text"; "tspan"; "use";
      "foreignobject" ]
|}.

(** [{ ...DEFAULT_OPTIONS, ...options }]. *)
Definition mergeOptions (options : ExtractorOptions) : RequiredOptions := {|
  minRepeats :=
    match minRepeats_opt options with
    | Some v => v
    | None => minRepeats DEFAULT_OPTIONS
    end;
  fingerprintOptions :=
    match fingerprintOptions_opt options with
    | Some v => v
    | None => fingerprintOptions DEFAULT_OPTIONS
    end;
  componentNameBase :=
    match componentNameBase_opt options with
    | Some v => v
    | None => componentNameBase DEFAULT_OPTIONS
    end;
  skipTags :=
    match skipTags_opt options with
    | Some v => v
    | None => skipTags DEFAULT_OPTIONS
    end
|}.

(** No option given: [{}]. *)
Definition noOptions : ExtractorOptions := {|
  minRepeats_opt := None;
  fingerprintOptions_opt := None;
  componentNameBase_opt := None;
  skipTags_opt := None
|}.

(* ================================================================= *)
(** ** Tag tests *)

Definition getTagName (n : JSXElement) : option string :=
  match name (openingElement n) with
  | JSXIdentifier s => Some s
  | _ => None
  end.

(** [!tagName] holds of [null] and of the empty string. *)
Definition shouldSkipTag (n : JSXElement) (skipTags : list string) : bool :=
  match getTagName n with
  | None => true
  | Some tagName =>
      if String.eqb tagName "" then true
      else has skipTags (toLowerCase tagName)
  end.

Definition isCustomComponent (n : JSXElement) : bool :=
  match getTagName n with
  | None => false
  | Some tagName =>
      if String.eqb tagName "" then false else startsWithUpper tagName
  end.

(* ================================================================= *)
(** ** The candidate map

    [Map<string, t.JSXElement[]>]: a JavaScript [Map] iterates in the
    order its keys were first inserted, so it is an association list. *)

Definition CandidateMap := list (string * list JSXElement).

Definition mapHas (m : CandidateMap) (k : string) : bool :=
  existsb (fun entry => String.eqb (fst entry) k) m.

(** [m.set(k, v)]: an existing key keeps its place, a new one goes last. *)
Fixpoint mapSet (m : CandidateMap) (k : string) (v : list JSXElement)
  : CandidateMap :=
  match m with
  | [] => [(k, v)]
  | (k', v') :: m' =>
      if String.eqb k' k then (k', v) :: m' else (k', v') :: mapSet m' k v
  end.

(** [m.get(k)!.push(n)]: the array stored under [k] grows in place. *)
Fixpoint mapPush (m : CandidateMap) (k : string) (n : JSXElement)
  : CandidateMap :=
  match m with
  | [] => []
  | (k', v') :: m' =>
      if String.eqb k' k then (k', v' ++ [n]) :: m'
      else (k', v') :: mapPush m' k n
  end.

(** [Array.prototype.sort((a, b) => b.count - a.count)].  The sort is
    stable (ECMAScript 2019): [a] stays ahead of a later [b] unless the
    comparator is positive, that is unless [a.count < b.count]. *)
Fixpoint insertByCount (a : ComponentCandidate) (sorted : list ComponentCandidate)
  : list ComponentCandidate :=
  match sorted with
  | [] => [a]
  | b :: rest =>
      if (count a <? count b)%nat then b :: insertByCount a rest
      else a :: sorted
  end.

Definition sortByCount (results : list ComponentCandidate)
  : list ComponentCandidate :=
  fold_right insertByCount [] results.

(* ================================================================= *)
(** ** The extractor *)

Section Extractor.

(** [generate(node).code] of [@babel/generator]. *)
Variable generate : Node -> string.

(** The tag name the fingerprint uses: [""] unless the name is an
    identifier or a member expression. *)
Definition fingerprintTagName (o : JSXOpeningElement) : string :=
  match name o with
  | JSXIdentifier s => s
  | JSXMemberExpression _ _ => generateName (name o)
  | JSXNamespacedName _ _ => ""
  end.

(** The loop over the attributes: the last [className] attribute whose
    value is a string literal or an expression container wins. *)
Definition fingerprintClassNames (attrs : list Node) : string :=
  fold_left
    (fun classNames attr =>
       match attr with
       | JSXAttribute (JSXIdentifier attrName) value =>
           if String.eqb attrName "className" then
             match value with
             | Some (StringLiteral v) => v
             | Some (JSXExpressionContainer e) =>
                 generate (JSXExpressionContainer e)
             | _ => classNames
             end
           else classNames
       | _ => classNames
       end)
    attrs "".

Definition computeTreeFingerprint (n : JSXElement) (options : FingerprintOptions)
  : string :=
  let openingElement := openingElement n in
  let tagName := fingerprintTagName openingElement in
  let childrenCount := List.length (children n) in
  let propsCount := List.length (attributes openingElement) in
  let classNames := fingerprintClassNames (attributes openingElement) in
  tagName ++ ":" ++ decimal propsCount ++ ":" ++ decimal childrenCount
          ++ ":" ++ classNames.

(** The body of the [JSXElement] visitor of [findComponentCandidates],
    as a step on the candidate map. *)
Definition visitJSXElement (opts : RequiredOptions) (candidates : CandidateMap)
  (path : NodePath) : CandidateMap :=
  let n := node path in
  (* Skip certain tags *)
  if shouldSkipTag n (skipTags opts) then candidates
  else
    (* Skip if parent is a skip tag *)
    if match parentElement (parentPath path) with
       | Some parent => shouldSkipTag parent (skipTags opts)
       | None => false
       end
    then candidates
    else
      (* Skip custom components *)
      if isCustomComponent n then candidates
      else
        (* Skip if not in a JSX parent *)
        match parentElement (parentPath path) with
        | None => candidates
        | Some _ =>
            let fingerprint :=
              computeTreeFingerprint n (fingerprintOptions opts) in
            let candidates :=
              if mapHas candidates fingerprint then candidates
              else mapSet candidates fingerprint [] in
            mapPush candidates fingerprint n
        end.

(** The candidate map once the traversal is over. *)
Definition collectCandidates (opts : RequiredOptions) (program : Node)
  : CandidateMap :=
  fold_left (visitJSXElement opts) (traverse program) [].

(** [findParentPath]: the traversal stops at the first path whose node is
    [n]; the result is that path's parent when it is a JSX element.  (The
    [catch] branch guards against the exception of the scope set-up.
    [findComponentCandidates] calls the function after its own traversal
    of the same program has run to its end, so the program has no
    function declaration and the branch is not taken.) *)
Definition findParentPath (n : JSXElement) (program : Node) : option AnyPath :=
  match find (fun path => sameNode (node path) n) (traverse program) with
  | Some path =>
      match parentElement (parentPath path) with
      | Some _ => parentPath path
      | None => None
      end
  | None => None
  end.

(** The inner loop over the occurrences of one group: [shouldSkip]. *)
Definition shouldSkipGroup (program : Node) (occurrences : list JSXElement)
  : bool :=
  existsb
    (fun occ =>
       match parentElement (findParentPath occ program) with
       | Some parent => isCustomComponent parent
       | None => false
       end)
    occurrences.

(** One iteration of the loop over [candidates.entries()]; the state is
    [results] and [componentCounter]. *)
Definition finalizeEntry (opts : RequiredOptions) (program : Node)
  (state : list ComponentCandidate * nat) (entry : string * list JSXElement)
  : list ComponentCandidate * nat :=
  let '(results, componentCounter) := state in
  let '(fingerprint, occurrences) := entry in
  if (List.length occurrences <? minRepeats opts)%nat then state
  else if shouldSkipGroup program occurrences then state
  else
    let componentCounter := S componentCounter in
    (results ++
       [ {| fingerprint := fingerprint;
            occurrences := occurrences;
            example := hd_error occurrences;
            count := List.length occurrences;
            suggestedName :=
              componentNameBase opts ++ decimal componentCounter |} ],
     componentCounter).

(** [results] before the sort. *)
Definition finalizeGroups (opts : RequiredOptions) (program : Node)
  (candidates : CandidateMap) : list ComponentCandidate :=
  fst (fold_left (finalizeEntry opts program) candidates ([], 0)).

(** [t.isFile(ast) ? ast.program : ast]. *)
Definition programOf (ast : Node) : Node :=
  match ast with
  | File program => program
  | _ => ast
  end.

(** The list [findComponentCandidates] returns, when it returns. *)
Definition findComponentCandidates (ast : Node) (options : ExtractorOptions)
  : list ComponentCandidate :=
  let opts := mergeOptions options in
  let program := programOf ast in
  let candidates := collectCandidates opts program in
  let results := finalizeGroups opts program candidates in
  sortByCount results.

(** The call [findComponentCandidates(ast, options)]: no handler is
    around its traversal, whose exception ends the call. *)
Definition findComponentCandidatesCall (ast : Node) (options : ExtractorOptions)
  : Completion (list ComponentCandidate) :=
  match traversalError (programOf ast) with
  | Some e => Throw e
  | None => Return (findComponentCandidates ast options)
  end.

End Extractor.

(* ================================================================= *)
(** ** Rewriting

    The rewriting half mutates the tree the parser returned.  The state
    is the program body, the subtrees replaced so far (an occurrence that
    was replaced is still the object the candidate lists point to) and
    the next unused object identity. *)

Record Heap : Type := mkHeap {
  programBody : list Node;
  detached : list JSXElement;
  nextRef : Ref
}.

(** The present state of the object [e] points to: candidates hold
    references into the tree, so an element read after earlier rewrites
    shows them. *)
Definition currentElement (h : Heap) (e : JSXElement) : JSXElement :=
  match
    find (fun path => sameNode (node path) e)
         (traverse (Program (programBody h)) ++
          flat_map (fun d => traverse (JSXElementNode d)) (detached h))
  with
  | Some path => node path
  | None => e
  end.

Section Threading.
Variables (A B : Type).

(** Map over a list while threading the allocator. *)
Variable alloc : A -> Ref -> A * Ref.

Fixpoint mapAlloc (l : list A) (next : Ref) : list A * Ref :=
  match l with
  | [] => ([], next)
  | x :: l' =>
      let (x', next1) := alloc x next in
      let (l'', next2) := mapAlloc l' next1 in
      (x' :: l'', next2)
  end.

(** Visit a list until a visit reports a stop ([Some]). *)
Variable visit : A -> A * option B.

Fixpoint mapUntil (l : list A) : list A * option B :=
  match l with
  | [] => ([], None)
  | x :: l' =>
      match visit x with
      | (x', Some stop) => (x' :: l', Some stop)
      | (x', None) =>
          let (l'', stop) := mapUntil l' in (x' :: l'', stop)
      end
  end.
End Threading.

Arguments mapAlloc {A} alloc l next.
Arguments mapUntil {A B} visit l.

(** [t.cloneNode(n)]: a deep copy, every element of it a new object. *)
Fixpoint cloneNode (n : Node) (next : Ref) {struct n} : Node * Ref :=
  match n with
  | File p => let (p', k) := cloneNode p next in (File p', k)
  | Program body =>
      let (body', k) := mapAlloc cloneNode body next in (Program body', k)
  | FunctionDeclaration id params body =>
      let (params', k1) := mapAlloc cloneNode params next in
      let (body', k2) := cloneNode body k1 in
      (FunctionDeclaration id params' body', k2)
  | BlockStatement body =>
      let (body', k) := mapAlloc cloneNode body next in
      (BlockStatement body', k)
  | ReturnStatement argument =>
      match argument with
      | Some a => let (a', k) := cloneNode a next in (ReturnStatement (Some a'), k)
      | None => (ReturnStatement None, next)
      end
  | Opaque code inner =>
      let (inner', k) := mapAlloc cloneNode inner next in (Opaque code inner', k)
  | StringLiteral v => (StringLiteral v, next)
  | JSXElementNode e =>
      let (e', k) := cloneElement e next in (JSXElementNode e', k)
  | JSXOpeningElementNode o =>
      let (o', k) := cloneOpening o next in (JSXOpeningElementNode o', k)
  | JSXAttribute attrName value =>
      match value with
      | Some v => let (v', k) := cloneNode v next in (JSXAttribute attrName (Some v'), k)
      | None => (JSXAttribute attrName None, next)
      end
  | JSXSpreadAttribute argument =>
      let (a', k) := cloneNode argument next in (JSXSpreadAttribute a', k)
  | JSXFragment cs =>
      let (cs', k) := mapAlloc cloneNode cs next in (JSXFragment cs', k)
  | JSXText v => (JSXText v, next)
  | JSXExpressionContainer expression =>
      let (x', k) := cloneNode expression next in (JSXExpressionContainer x', k)
  | JSXSpreadChild expression =>
      let (x', k) := cloneNode expression next in (JSXSpreadChild x', k)
  end
with cloneElement (e : JSXElement) (next : Ref) {struct e} : JSXElement * Ref :=
  match e with
  | mkJSXElement _ o cs =>
      let (o', k1) := cloneOpening o (S next) in
      let (cs', k2) := mapAlloc cloneNode cs k1 in
      (mkJSXElement next o' cs', k2)
  end
with cloneOpening (o : JSXOpeningElement) (next : Ref) {struct o}
  : JSXOpeningElement * Ref :=
  match o with
  | mkJSXOpeningElement nm attrs sc =>
      let (attrs', k) := mapAlloc cloneNode attrs next in
      (mkJSXOpeningElement nm attrs' sc, k)
  end.

(** [extractComponentDeclaration]: [function Name() { return <example>; }]
    around a clone of the example as it is now ([t.cloneNode] hands back
    a missing node as it is). *)
Definition extractComponentDeclaration (h : Heap) (candidate : ComponentCandidate)
  (options : ExtractorOptions) : Node * Ref :=
  let suggestedName := suggestedName candidate in
  let (clone, next) :=
    match example candidate with
    | Some example =>
        let (c, k) := cloneElement (currentElement h example) (nextRef h) in
        (Some (JSXElementNode c), k)
    | None => (None, nextRef h)
    end in
  (FunctionDeclaration suggestedName [] (BlockStatement [ReturnStatement clone]),
   next).

(** What ends a traversal before it has visited every node: the visitor
    has replaced the element [old] and called [path.stop()], or the scope
    set-up of a path has thrown. *)
Inductive Halt : Type :=
| Replaced (old : JSXElement)
| Failed (e : Error).

(** The traversal of [replaceOccurrencesWithComponent] below one node.
    At the first element, in pre-order, that [occurrences] includes, the
    visitor puts [replacement] in its place and calls [path.stop()], which
    ends the whole traversal: the result carries the element taken out.
    Nothing below a replaced element is visited.  At a function
    declaration the scope set-up throws before anything below it is
    visited. *)
Fixpoint replaceInNode (occurrences : list JSXElement) (replacement : JSXElement)
  (n : Node) {struct n} : Node * option Halt :=
  match n with
  | File p =>
      let (p', stop) := replaceInNode occurrences replacement p in (File p', stop)
  | Program body =>
      let (body', stop) :=
        mapUntil (replaceInNode occurrences replacement) body in
      (Program body', stop)
  | FunctionDeclaration _ _ _ => (n, Some (Failed scopeError))
  | BlockStatement body =>
      let (body', stop) :=
        mapUntil (replaceInNode occurrences replacement) body in
      (BlockStatement body', stop)
  | ReturnStatement argument =>
      match argument with
      | Some a =>
          let (a', stop) := replaceInNode occurrences replacement a in
          (ReturnStatement (Some a'), stop)
      | None => (n, None)
      end
  | Opaque code inner =>
      let (inner', stop) :=
        mapUntil (replaceInNode occurrences replacement) inner in
      (Opaque code inner', stop)
  | StringLiteral _ => (n, None)
  | JSXElementNode e =>
      if includes occurrences e
      then (JSXElementNode replacement, Some (Replaced e))
      else
        match e with
        | mkJSXElement r o cs =>
            match replaceInOpening occurrences replacement o with
            | (o', Some stop) =>
                (JSXElementNode (mkJSXElement r o' cs), Some stop)
            | (o', None) =>
                let (cs', stop) :=
                  mapUntil (replaceInNode occurrences replacement) cs in
                (JSXElementNode (mkJSXElement r o' cs'), stop)
            end
        end
  | JSXOpeningElementNode o =>
      let (o', stop) := replaceInOpening occurrences replacement o in
      (JSXOpeningElementNode o', stop)
  | JSXAttribute attrName value =>
      match value with
      | Some v =>
          let (v', stop) := replaceInNode occurrences replacement v in
          (JSXAttribute attrName (Some v'), stop)
      | None => (n, None)
      end
  | JSXSpreadAttribute argument =>
      let (a', stop) := replaceInNode occurrences replacement argument in
      (JSXSpreadAttribute a', stop)
  | JSXFragment cs =>
      let (cs', stop) := mapUntil (replaceInNode occurrences replacement) cs in
      (JSXFragment cs', stop)
  | JSXText _ => (n, None)
  | JSXExpressionContainer expression =>
      let (x', stop) := replaceInNode occurrences replacement expression in
      (JSXExpressionContainer x', stop)
  | JSXSpreadChild expression =>
      let (x', stop) := replaceInNode occurrences replacement expression in
      (JSXSpreadChild x', stop)
  end
with replaceInOpening (occurrences : list JSXElement) (replacement : JSXElement)
  (o : JSXOpeningElement) {struct o} : JSXOpeningElement * option Halt :=
  match o with
  | mkJSXOpeningElement nm attrs sc =>
      let (attrs', stop) :=
        mapUntil (replaceInNode occurrences replacement) attrs in
      (mkJSXOpeningElement nm attrs' sc, stop)
  end.

(** [replaceOccurrencesWithComponent(program, candidate)].  The
    replacement is a new self-closing element named [suggestedName] with
    no attribute and no child.  The [catch] around the traversal logs
    the exception of the scope set-up and the function returns; the
    program is then as it was. *)
Definition replaceOccurrencesWithComponent (h : Heap) (candidate : ComponentCandidate)
  : Heap :=
  let occurrences := occurrences candidate in
  let suggestedName := suggestedName candidate in
  let replacement :=
    mkJSXElement (nextRef h)
      (mkJSXOpeningElement (JSXIdentifier suggestedName) [] true) [] in
  match mapUntil (replaceInNode occurrences replacement) (programBody h) with
  | (body', Some (Replaced old)) =>
      {| programBody := body';
         detached := old :: detached h;
         nextRef := S (nextRef h) |}
  | (_, Some (Failed _)) => h
  | (_, None) => h
  end.

(* ================================================================= *)
(** ** The whole stage *)

(** An entry of [ExtractionResult.components]. *)
Module Extracted.
Record t : Type := mk {
  name : string;
  count : nat;
  fingerprint : string
}.
End Extracted.

Record ExtractionResult : Type := mkExtractionResult {
  code : string;
  components : list Extracted.t;
  changed : bool
}.

(** The state the rewriting starts from: the parsed body, nothing
    detached, and an identity no parsed element has. *)
Definition initialHeap (body : list Node) : Heap := {|
  programBody := body;
  detached := [];
  nextRef := S (list_max (map (fun path => ref (node path))
                              (traverse (Program body))))
|}.

(** The body of the loop over the candidates in [extractComponents]. *)
Definition processCandidate (options : ExtractorOptions)
  (state : Heap * list Extracted.t) (candidate : ComponentCandidate)
  : Heap * list Extracted.t :=
  let '(h, extractedComponents) := state in
  (* Create component declaration *)
  let (decl, next) := extractComponentDeclaration h candidate options in
  (* Add to program body *)
  let h := {| programBody := decl :: programBody h;
              detached := detached h;
              nextRef := next |} in
  (* Replace occurrences *)
  let h := replaceOccurrencesWithComponent h candidate in
  (h,
   extractedComponents ++
     [ {| Extracted.name := suggestedName candidate;
          Extracted.count := count candidate;
          Extracted.fingerprint := fingerprint candidate |} ]).

Definition processCandidates (options : ExtractorOptions) (body : list Node)
  (candidates : list ComponentCandidate) : Heap * list Extracted.t :=
  fold_left (processCandidate options) candidates (initialHeap body, []).

Section Stage.

(** [parse(code, { sourceType: "module", plugins: ["jsx", "typescript"] })]:
    the body of the program of the [File] the parser returns, or the
    error it throws on text it cannot parse. *)
Variable parse : string -> Completion (list Node).

(** [generate(ast, { jsescOption: { minimal: true } }).code]. *)
Variable generate : Node -> string.

Definition extractComponents (code : string) (options : ExtractorOptions)
  : Completion ExtractionResult :=
  match parse code with
  | Throw e => Throw e
  | Return body =>
      let ast := File (Program body) in
      match findComponentCandidatesCall generate ast options with
      | Throw e => Throw e
      | Return [] =>
          Return {| code := code; components := []; changed := false |}
      | Return ((_ :: _) as candidates) =>
          let (h, extractedComponents) :=
            processCandidates options body candidates in
          Return {| code := generate (File (Program (programBody h)));
                    components := extractedComponents;
                    changed := true |}
      end
  end.

End Stage.

(* ================================================================= *)
(** ** Measures on a rewritten program *)

(** A self-closing reference to the unit [unitName]: what
    [replaceOccurrencesWithComponent] builds. *)
Definition isInvocationOf (unitName : string) (e : JSXElement) : bool :=
  match name (openingElement e) with
  | JSXIdentifier s =>
      String.eqb s unitName && selfClosing (openingElement e)
  | _ => false
  end.

Definition countInvocations (unitName : string) (body : list Node) : nat :=
  List.length (filter (fun path => isInvocationOf unitName (node path))
                      (traverse (Program body))).

(** Top-level function declarations of the unit. *)
Definition countDeclarations (unitName : string) (body : list Node) : nat :=
  List.length (filter (fun n => match n with
                           | FunctionDeclaration id _ _ => String.eqb id unitName
                           | _ => false
                           end) body).

(* ================================================================= *)
(** ** Sample trees *)

(** [<tag attrs>children</tag>] as the object [r]; self-closing when it
    has no child. *)
Definition elem (r : Ref) (tag : string) (attrs : list Node) (cs : list Node)
  : JSXElement :=
  mkJSXElement r
    (mkJSXOpeningElement (JSXIdentifier tag) attrs
       (match cs with [] => true | _ => false end))
    cs.

Definition el (r : Ref) (tag : string) (attrs : list Node) (cs : list Node)
  : Node := JSXElementNode (elem r tag attrs cs).

(** [const x = <root/>;] as the only statement of a module. *)
Definition moduleOf (root : Node) : list Node := [Opaque "const x = ...;" [root]].

(** A generator for the samples: an expression container prints as the
    text of an opaque expression between braces. *)
Definition sampleGenerate (n : Node) : string :=
  match n with
  | JSXExpressionContainer (Opaque text _) => "{" ++ text ++ "}"
  | _ => ""
  end.

(** [<div><p>a</p><p>b</p></div>] *)
Definition twoParagraphs : list Node :=
  moduleOf (el 1 "div" []
              [ el 2 "p" [] [JSXText "a"]; el 3 "p" [] [JSXText "b"] ]).

(** What [extractComponents] makes of [twoParagraphs]:
    [function Extracted1() { return <p>a</p>; }] in front of the
    statement, which is as it was. *)
Definition twoParagraphsRewritten : list Node :=
  [ FunctionDeclaration "Extracted1" []
      (BlockStatement [ReturnStatement (Some (el 4 "p" [] [JSXText "a"]))]);
    Opaque "const x = ...;"
      [ el 1 "div" []
          [ el 2 "p" [] [JSXText "a"]; el 3 "p" [] [JSXText "b"] ] ] ].

(** What [replaceOccurrencesWithComponent] alone makes of
    [twoParagraphs], a program without function declaration, and the
    group of its two paragraphs: [<div><Extracted1 /><p>b</p></div>]. *)
Definition twoParagraphsReplaced : list Node :=
  [ Opaque "const x = ...;"
      [ el 1 "div" []
          [ el 4 "Extracted1" [] []; el 3 "p" [] [JSXText "b"] ] ] ].

(** The [i]-th path of the traversal of a sample. *)
Definition pathAt (i : nat) (body : list Node) : NodePath :=
  nth i (traverse (Program body)) (mkNodePath (elem 0 "" [] []) None).

(** [<div><Card><section><p/><p/></section></Card></div>] *)
Definition insideCard : list Node :=
  moduleOf (el 1 "div" []
              [ el 2 "Card" []
                  [ el 3 "section" [] [ el 4 "p" [] []; el 5 "p" [] [] ] ] ]).

(** [<div><Card><p/><p/></Card></div>] *)
Definition directlyInCard : list Node :=
  moduleOf (el 1 "div" []
              [ el 2 "Card" [] [ el 3 "p" [] []; el 4 "p" [] [] ] ]).

(** [<main><div><p/></div><div><p/></div></main>] *)
Definition nestedGroups : list Node :=
  moduleOf (el 1 "main" []
              [ el 2 "div" [] [ el 3 "p" [] [] ];
                el 4 "div" [] [ el 5 "p" [] [] ] ]).

(** [<main><p/><p/><span/><span/><span/></main>] *)
Definition twoThenThree : list Node :=
  moduleOf (el 1 "main" []
              [ el 2 "p" [] []; el 3 "p" [] [];
                el 4 "span" [] []; el 5 "span" [] []; el 6 "span" [] [] ]).

(** What [extractComponents] makes of [twoThenThree]: the declarations
    of [Extracted1] and [Extracted2] in front of the statement, which is
    as it was. *)
Definition twoThenThreeRewritten : list Node :=
  [ FunctionDeclaration "Extracted1" []
      (BlockStatement [ReturnStatement (Some (el 8 "p" [] []))]);
    FunctionDeclaration "Extracted2" []
      (BlockStatement [ReturnStatement (Some (el 7 "span" [] []))]);
    Opaque "const x = ...;"
      [ el 1 "main" []
          [ el 2 "p" [] []; el 3 "p" [] [];
            el 4 "span" [] []; el 5 "span" [] []; el 6 "span" [] [] ] ] ].

(** Leaves [<tag/>], one for each identity of [refs]. *)
Definition leaves (tag : string) (refs : list Ref) : list Node :=
  map (fun r => el r tag [] []) refs.

(** [<parentTag><tag/>...<tag/></parentTag>] *)
Definition repeatedLeaf (r0 : Ref) (parentTag tag : string) (refs : list Ref)
  : list Node :=
  moduleOf (el r0 parentTag [] (leaves tag refs)).

(** [{ skipTags: new Set(["clipPath"]) }] *)
Definition skipClipPath : ExtractorOptions := {|
  minRepeats_opt := None;
  fingerprintOptions_opt := None;
  componentNameBase_opt := None;
  skipTags_opt := Some ["clipPath"]
|}.

(** [<div><p/><span/></div>] *)
Definition singleShapes : list Node :=
  moduleOf (el 1 "div" [] [ el 2 "p" [] []; el 3 "span" [] [] ]).

(** [function App(){ return <div><p/><span/></div>; }] *)
Definition functionApp : list Node :=
  [ FunctionDeclaration "App" []
      (BlockStatement
         [ReturnStatement
            (Some (el 1 "div" [] [ el 2 "p" [] []; el 3 "span" [] [] ]))]) ].

(** [<p className="row">A</p>] and [<p className="row">{x}</p>] as the
    objects 1 and 2. *)
Definition rowWithText : JSXElement :=
  elem 1 "p" [JSXAttribute (JSXIdentifier "className") (Some (StringLiteral "row"))]
       [JSXText "A"].

Definition rowWithExpression : JSXElement :=
  elem 2 "p" [JSXAttribute (JSXIdentifier "className") (Some (StringLiteral "row"))]
       [JSXExpressionContainer (Opaque "x" [])].


(* ================================================================= *)
(** ** Vocabulary of the statements *)

Section Vocabulary.

Variable generate : Node -> string.

(** The visitor of [findComponentCandidates] keeps a path: none of its
    four early returns is taken. *)
Definition eligible (opts : RequiredOptions) (path : NodePath) : bool :=
  negb (shouldSkipTag (node path) (skipTags opts)) &&
  match parentElement (parentPath path) with
  | Some parent =>
      negb (shouldSkipTag parent (skipTags opts)) &&
      negb (isCustomComponent (node path))
  | None => false
  end.

Definition fingerprintOf (opts : RequiredOptions) (path : NodePath) : string :=
  computeTreeFingerprint generate (node path) (fingerprintOptions opts).

(** The fingerprints of the eligible elements, in traversal order: the
    order of discovery. *)
Definition discoveries (opts : RequiredOptions) (program : Node) : list string :=
  map (fingerprintOf opts) (filter (eligible opts) (traverse program)).

(** Position of the first occurrence of [k] in [l] (the length of [l]
    when there is none). *)
Fixpoint firstIndex (k : string) (l : list string) : nat :=
  match l with
  | [] => 0
  | x :: l' => if String.eqb x k then 0 else S (firstIndex k l')
  end.

(** When the fingerprint [k] was first discovered. *)
Definition firstDiscovery (opts : RequiredOptions) (program : Node) (k : string)
  : nat :=
  firstIndex k (discoveries opts program).

(** The eligible elements with fingerprint [k], in traversal order. *)
Definition groupOf (opts : RequiredOptions) (paths : list NodePath) (k : string)
  : list JSXElement :=
  map node
    (filter (fun path => eligible opts path &&
                         String.eqb (fingerprintOf opts path) k) paths).

(** How many elements of the tree, eligible or not, have the
    fingerprint [k]. *)
Definition sameShapeCount (opts : RequiredOptions) (program : Node) (k : string)
  : nat :=
  List.length
    (filter (fun path => String.eqb (fingerprintOf opts path) k)
            (traverse program)).

(** Every element object occurs once in the tree, as in any tree the
    parser builds: [ref] then names an element as [===] does. *)
Definition uniqueRefs (program : Node) : Prop :=
  NoDup (map (fun path => ref (node path)) (traverse program)).

(** The order of the result: more occurrences first, and among equal
    counts the fingerprint discovered first. *)
Definition resultOrder (opts : RequiredOptions) (program : Node)
  (a b : ComponentCandidate) : Prop :=
  count b < count a \/
  (count a = count b /\
   firstDiscovery opts program (fingerprint a)
   < firstDiscovery opts program (fingerprint b)).

(** A group of the map passes the two tests of the loop that builds the
    results. *)
Definition qualifies (opts : RequiredOptions) (program : Node)
  (entry : string * list JSXElement) : bool :=
  negb (List.length (snd entry) <? minRepeats opts)%nat &&
  negb (shouldSkipGroup program (snd entry)).

(** What holds of the map after the visitor has run on the paths [pre]. *)
Record collected (opts : RequiredOptions) (pre : list NodePath) (m : CandidateMap)
  : Prop := {
  collected_nodup : NoDup (map fst m);
  collected_groups :
    forall k occs, In (k, occs) m ->
      occs = groupOf opts pre k /\ occs <> [];
  collected_keys :
    forall k,
      In k (map fst m) <->
      In k (map (fingerprintOf opts) (filter (eligible opts) pre));
  collected_order :
    StronglySorted
      (fun k1 k2 =>
         firstIndex k1 (map (fingerprintOf opts)
                            (filter (eligible opts) pre))
         < firstIndex k2 (map (fingerprintOf opts)
                              (filter (eligible opts) pre)))
      (map fst m)
}.

(** The group a result was built from. *)
Definition entryOf (c : ComponentCandidate) : string * list JSXElement :=
  (fingerprint c, occurrences c).

(** The name the counter value [i] gives. *)
Definition nameAt (opts : RequiredOptions) (i : nat) : string :=
  componentNameBase opts ++ decimal i.

Record finalized (opts : RequiredOptions) (program : Node) (pre : CandidateMap)
  (state : list ComponentCandidate * nat) : Prop := {
  finalized_counter : snd state = List.length (fst state);
  finalized_entries :
    map entryOf (fst state) = filter (qualifies opts program) pre;
  finalized_names :
    map suggestedName (fst state) =
    map (nameAt opts) (seq 1 (List.length (fst state)));
  finalized_fields :
    Forall (fun c => example c = hd_error (occurrences c) /\
                     count c = List.length (occurrences c)) (fst state)
}.

End Vocabulary.

(** The entry of [components] a candidate is reported as. *)
Definition reportOf (candidate : ComponentCandidate) : Extracted.t := {|
  Extracted.name := suggestedName candidate;
  Extracted.count := count candidate;
  Extracted.fingerprint := fingerprint candidate
|}.

(** The order a stable sort by descending count yields, [before] being
    the order of the array that is sorted. *)
Definition sortedOrder (before : ComponentCandidate -> ComponentCandidate -> Prop)
  (a b : ComponentCandidate) : Prop :=
  count b < count a \/ (count a = count b /\ before a b).

(* ================================================================= *)
(** ** Induction on the tree *)

(** The induction principle of the three mutually defined types, with
    [Forall] for the lists of nodes. *)
Section NodeInduction.

Variable PN : Node -> Prop.
Variable PE : JSXElement -> Prop.
Variable PO : JSXOpeningElement -> Prop.

Hypothesis HFile : forall p, PN p -> PN (File p).
Hypothesis HProgram : forall body, Forall PN body -> PN (Program body).
Hypothesis HFunction :
  forall id params body,
    Forall PN params -> PN body -> PN (FunctionDeclaration id params body).
Hypothesis HBlock : forall body, Forall PN body -> PN (BlockStatement body).
Hypothesis HReturnSome : forall a, PN a -> PN (ReturnStatement (Some a)).
Hypothesis HReturnNone : PN (ReturnStatement None).
Hypothesis HOpaque : forall text inner, Forall PN inner -> PN (Opaque text inner).
Hypothesis HStringLiteral : forall v, PN (StringLiteral v).
Hypothesis HElementNode : forall e, PE e -> PN (JSXElementNode e).
Hypothesis HOpeningNode : forall o, PO o -> PN (JSXOpeningElementNode o).
Hypothesis HAttributeSome : forall nm v, PN v -> PN (JSXAttribute nm (Some v)).
Hypothesis HAttributeNone : forall nm, PN (JSXAttribute nm None).
Hypothesis HSpreadAttribute : forall a, PN a -> PN (JSXSpreadAttribute a).
Hypothesis HFragment : forall cs, Forall PN cs -> PN (JSXFragment cs).
Hypothesis HText : forall v, PN (JSXText v).
Hypothesis HContainer : forall x, PN x -> PN (JSXExpressionContainer x).
Hypothesis HSpreadChild : forall x, PN x -> PN (JSXSpreadChild x).
Hypothesis HElement :
  forall r o cs, PO o -> Forall PN cs -> PE (mkJSXElement r o cs).
Hypothesis HOpening :
  forall nm attrs sc, Forall PN attrs -> PO (mkJSXOpeningElement nm attrs sc).

Fixpoint Node_induction (n : Node) {struct n} : PN n :=
  let all :=
    fix all (l : list Node) : Forall PN l :=
      match l with
      | [] => Forall_nil PN
      | x :: l' => Forall_cons x (Node_induction x) (all l')
      end in
  match n with
  | File p => HFile p (Node_induction p)
  | Program body => HProgram body (all body)
  | FunctionDeclaration id params body =>
      HFunction id params body (all params) (Node_induction body)
  | BlockStatement body => HBlock body (all body)
  | ReturnStatement (Some a) => HReturnSome a (Node_induction a)
  | ReturnStatement None => HReturnNone
  | Opaque text inner => HOpaque text inner (all inner)
  | StringLiteral v => HStringLiteral v
  | JSXElementNode e => HElementNode e (JSXElement_induction e)
  | JSXOpeningElementNode o => HOpeningNode o (JSXOpeningElement_induction o)
  | JSXAttribute nm (Some v) => HAttributeSome nm v (Node_induction v)
  | JSXAttribute nm None => HAttributeNone nm
  | JSXSpreadAttribute a => HSpreadAttribute a (Node_induction a)
  | JSXFragment cs => HFragment cs (all cs)
  | JSXText v => HText v
  | JSXExpressionContainer x => HContainer x (Node_induction x)
  | JSXSpreadChild x => HSpreadChild x (Node_induction x)
  end
with JSXElement_induction (e : JSXElement) {struct e} : PE e :=
  match e with
  | mkJSXElement r o cs =>
      HElement r o cs (JSXOpeningElement_induction o)
        ((fix all (l : list Node) : Forall PN l :=
            match l with
            | [] => Forall_nil PN
            | x :: l' => Forall_cons x (Node_induction x) (all l')
            end) cs)
  end
with JSXOpeningElement_induction (o : JSXOpeningElement) {struct o} : PO o :=
  match o with
  | mkJSXOpeningElement nm attrs sc =>
      HOpening nm attrs sc
        ((fix all (l : list Node) : Forall PN l :=
            match l with
            | [] => Forall_nil PN
            | x :: l' => Forall_cons x (Node_induction x) (all l')
            end) attrs)
  end.

End NodeInduction.

(** The elements below a node, in traversal order. *)
Definition elems (n : Node) : list JSXElement := map node (traverseNode None n).

Definition elemsOpening (o : JSXOpeningElement) : list JSXElement :=
  map node (traverseOpening None o).

(** The points, in traversal order, at which the traversal of
    [replaceOccurrencesWithComponent] can end below a node: the elements
    that [occs] includes and the function declarations.  Nothing below
    such a point is listed. *)
Fixpoint haltsIn (occs : list JSXElement) (n : Node) {struct n} : list Halt :=
  match n with
  | File p => haltsIn occs p
  | Program body => flat_map (haltsIn occs) body
  | FunctionDeclaration _ _ _ => [Failed scopeError]
  | BlockStatement body => flat_map (haltsIn occs) body
  | ReturnStatement argument =>
      match argument with
      | Some a => haltsIn occs a
      | None => []
      end
  | Opaque _ inner => flat_map (haltsIn occs) inner
  | StringLiteral _ => []
  | JSXElementNode e =>
      if includes occs e then [Replaced e]
      else
        match e with
        | mkJSXElement _ o cs =>
            haltsInOpening occs o ++ flat_map (haltsIn occs) cs
        end
  | JSXOpeningElementNode o => haltsInOpening occs o
  | JSXAttribute _ value =>
      match value with
      | Some v => haltsIn occs v
      | None => []
      end
  | JSXSpreadAttribute argument => haltsIn occs argument
  | JSXFragment cs => flat_map (haltsIn occs) cs
  | JSXText _ => []
  | JSXExpressionContainer expression => haltsIn occs expression
  | JSXSpreadChild expression => haltsIn occs expression
  end
with haltsInOpening (occs : list JSXElement) (o : JSXOpeningElement)
  {struct o} : list Halt :=
  match o with
  | mkJSXOpeningElement _ attrs _ => flat_map (haltsIn occs) attrs
  end.

(** The tree with [replacement] in the place of the element object
    [target]. *)
Fixpoint substitute (target : Ref) (replacement : JSXElement) (n : Node)
  {struct n} : Node :=
  match n with
  | File p => File (substitute target replacement p)
  | Program body => Program (map (substitute target replacement) body)
  | FunctionDeclaration id params body =>
      FunctionDeclaration id (map (substitute target replacement) params)
        (substitute target replacement body)
  | BlockStatement body =>
      BlockStatement (map (substitute target replacement) body)
  | ReturnStatement argument =>
      ReturnStatement (match argument with
                       | Some a => Some (substitute target replacement a)
                       | None => None
                       end)
  | Opaque text inner => Opaque text (map (substitute target replacement) inner)
  | StringLiteral v => StringLiteral v
  | JSXElementNode e =>
      if Nat.eqb (ref e) target then JSXElementNode replacement
      else
        match e with
        | mkJSXElement r o cs =>
            JSXElementNode
              (mkJSXElement r (substituteOpening target replacement o)
                 (map (substitute target replacement) cs))
        end
  | JSXOpeningElementNode o =>
      JSXOpeningElementNode (substituteOpening target replacement o)
  | JSXAttribute attrName value =>
      JSXAttribute attrName (match value with
                             | Some v => Some (substitute target replacement v)
                             | None => None
                             end)
  | JSXSpreadAttribute argument =>
      JSXSpreadAttribute (substitute target replacement argument)
  | JSXFragment cs => JSXFragment (map (substitute target replacement) cs)
  | JSXText v => JSXText v
  | JSXExpressionContainer expression =>
      JSXExpressionContainer (substitute target replacement expression)
  | JSXSpreadChild expression =>
      JSXSpreadChild (substitute target replacement expression)
  end
with substituteOpening (target : Ref) (replacement : JSXElement)
  (o : JSXOpeningElement) {struct o} : JSXOpeningElement :=
  match o with
  | mkJSXOpeningElement nm attrs sc =>
      mkJSXOpeningElement nm (map (substitute target replacement) attrs) sc
  end.

(** What the traversal of [replaceOccurrencesWithComponent] makes of a
    tree [before] with the elements [below], the halting points [halts]
    and the result [after]: it ends at the first halting point; when
    that is an element, the element is one of the tree that the
    occurrences include, and in a tree of distinct objects the result is
    the tree with the replacement in its place; otherwise the tree is as
    it was. *)
Definition walked {T : Type} (occs : list JSXElement)
  (substituted : Ref -> T) (below : list JSXElement) (halts : list Halt)
  (before : T) (after : T * option Halt) : Prop :=
  snd after = hd_error halts /\
  match snd after with
  | Some (Replaced old) =>
      In old below /\ includes occs old = true /\
      (NoDup (map ref below) -> fst after = substituted (ref old))
  | _ => fst after = before
  end.

(** The reference [replaceOccurrencesWithComponent] builds:
    [<unitName />] as the object [r]. *)
Definition reference (r : Ref) (unitName : string) : JSXElement :=
  mkJSXElement r (mkJSXOpeningElement (JSXIdentifier unitName) [] true) [].

(** [walked] of a node, of an opening element and of a list of nodes. *)
Definition nodeWalked (occs : list JSXElement) (replacement : JSXElement)
  (n : Node) : Prop :=
  walked occs (fun target => substitute target replacement n)
    (elems n) (haltsIn occs n) n (replaceInNode occs replacement n).

Definition openingWalked (occs : list JSXElement) (replacement : JSXElement)
  (o : JSXOpeningElement) : Prop :=
  walked occs (fun target => substituteOpening target replacement o)
    (elemsOpening o) (haltsInOpening occs o) o
    (replaceInOpening occs replacement o).

Definition listWalked (occs : list JSXElement) (replacement : JSXElement)
  (l : list Node) : Prop :=
  walked occs (fun target => map (substitute target replacement) l)
    (flat_map elems l) (flat_map (haltsIn occs) l) l
    (mapUntil (replaceInNode occs replacement) l).

(* ================================================================= *)
(** ** Vocabulary of the further properties *)

(** No character of [s] is a colon. *)
Fixpoint noColon (s : string) : bool :=
  match s with
  | EmptyString => true
  | String c s' => negb (Ascii.eqb c ":") && noColon s'
  end.

(** The name a statement declares, when it is a function declaration. *)
Definition declName (n : Node) : option string :=
  match n with
  | FunctionDeclaration id _ _ => Some id
  | _ => None
  end.

(** [declared] is the name [unitName]. *)
Definition declares (unitName : string) (declared : option string) : bool :=
  match declared with
  | Some id => String.eqb id unitName
  | None => false
  end.

(** A tree with the identities of its elements forgotten. *)
Fixpoint stripNode (n : Node) {struct n} : Node :=
  match n with
  | File p => File (stripNode p)
  | Program body => Program (map stripNode body)
  | FunctionDeclaration id params body =>
      FunctionDeclaration id (map stripNode params) (stripNode body)
  | BlockStatement body => BlockStatement (map stripNode body)
  | ReturnStatement argument =>
      ReturnStatement (match argument with
                       | Some a => Some (stripNode a)
                       | None => None
                       end)
  | Opaque text inner => Opaque text (map stripNode inner)
  | StringLiteral v => StringLiteral v
  | JSXElementNode e => JSXElementNode (stripElement e)
  | JSXOpeningElementNode o => JSXOpeningElementNode (stripOpening o)
  | JSXAttribute attrName value =>
      JSXAttribute attrName (match value with
                             | Some v => Some (stripNode v)
                             | None => None
                             end)
  | JSXSpreadAttribute argument => JSXSpreadAttribute (stripNode argument)
  | JSXFragment cs => JSXFragment (map stripNode cs)
  | JSXText v => JSXText v
  | JSXExpressionContainer expression =>
      JSXExpressionContainer (stripNode expression)
  | JSXSpreadChild expression => JSXSpreadChild (stripNode expression)
  end
with stripElement (e : JSXElement) {struct e} : JSXElement :=
  match e with
  | mkJSXElement _ o cs => mkJSXElement 0 (stripOpening o) (map stripNode cs)
  end
with stripOpening (o : JSXOpeningElement) {struct o} : JSXOpeningElement :=
  match o with
  | mkJSXOpeningElement nm attrs sc =>
      mkJSXOpeningElement nm (map stripNode attrs) sc
  end.

(** What a copy is: the same tree, its elements numbered afresh from
    [next] on in traversal order. *)
Definition copies (n : Node) : Prop :=
  forall next,
    snd (cloneNode n next) = next + List.length (elems n) /\
    map ref (elems (fst (cloneNode n next)))
    = seq next (List.length (elems n)) /\
    stripNode (fst (cloneNode n next)) = stripNode n.

Definition openingCopies (o : JSXOpeningElement) : Prop :=
  forall next,
    snd (cloneOpening o next) = next + List.length (elemsOpening o) /\
    map ref (elemsOpening (fst (cloneOpening o next)))
    = seq next (List.length (elemsOpening o)) /\
    stripOpening (fst (cloneOpening o next)) = stripOpening o.

(** The groups of the samples [twoParagraphs] and [twoThenThree]. *)
Definition paragraphGroup : ComponentCandidate := {|
  fingerprint := "p:0:1:";
  occurrences := [elem 2 "p" [] [JSXText "a"]; elem 3 "p" [] [JSXText "b"]];
  example := Some (elem 2 "p" [] [JSXText "a"]);
  count := 2;
  suggestedName := "Extracted1"
|}.

Definition spanGroup : ComponentCandidate := {|
  fingerprint := "span:0:0:";
  occurrences := [elem 4 "span" [] []; elem 5 "span" [] []; elem 6 "span" [] []];
  example := Some (elem 4 "span" [] []);
  count := 3;
  suggestedName := "Extracted2"
|}.

Definition pGroup : ComponentCandidate := {|
  fingerprint := "p:0:0:";
  occurrences := [elem 2 "p" [] []; elem 3 "p" [] []];
  example := Some (elem 2 "p" [] []);
  count := 2;
  suggestedName := "Extracted1"
|}.

(** [{ minRepeats: 3 }] *)
Definition atLeastThree : ExtractorOptions := {|
  minRepeats_opt := Some 3;
  fingerprintOptions_opt := None;
  componentNameBase_opt := None;
  skipTags_opt := None
|}.

(* ================================================================= *)
(** ** Lists, folds and the candidate map *)

Lemma fold_left_prefix_ind (A B : Type) (f : A -> B -> A)
  (P : list B -> A -> Prop) (a0 : A) :
  P [] a0 ->
  (forall pre x a, P pre a -> P (pre ++ [x]) (f a x)) ->
  forall l, P l (fold_left f l a0).
Proof.
  intros H0 Hstep l.
  induction l as [| x l IH] using rev_ind.
  - exact H0.
  - rewrite fold_left_app. simpl. apply Hstep, IH.
Qed.

Lemma firstIndex_app_in k l l' :
  In k l -> firstIndex k (l ++ l') = firstIndex k l.
Proof.
  induction l as [| x l IH]; simpl; intros Hin; [contradiction|].
  destruct (String.eqb x k) eqn:E; [reflexivity|].
  destruct Hin as [->|Hin]; [rewrite String.eqb_refl in E; discriminate|].
  now rewrite IH.
Qed.

Lemma firstIndex_lt k l : In k l -> firstIndex k l < List.length l.
Proof.
  induction l as [| x l IH]; simpl; intros Hin; [contradiction|].
  destruct (String.eqb x k) eqn:E; [lia|].
  destruct Hin as [->|Hin]; [rewrite String.eqb_refl in E; discriminate|].
  specialize (IH Hin). lia.
Qed.

Lemma firstIndex_fresh k l :
  ~ In k l -> firstIndex k (l ++ [k]) = List.length l.
Proof.
  induction l as [| x l IH]; simpl; intros Hnin.
  - now rewrite String.eqb_refl.
  - destruct (String.eqb x k) eqn:E.
    + apply String.eqb_eq in E. exfalso. apply Hnin. now left.
    + rewrite IH; [reflexivity|]. intros H. apply Hnin. now right.
Qed.

Lemma mapHas_true m k : mapHas m k = true <-> In k (map fst m).
Proof.
  unfold mapHas. rewrite existsb_exists. split.
  - intros [[k' v] [Hin E]]. simpl in E. apply String.eqb_eq in E. subst.
    apply in_map_iff. now exists (k, v).
  - intros Hin. apply in_map_iff in Hin. destruct Hin as [[k' v] [E Hin]].
    simpl in E. subst. exists (k, v). split; [assumption|].
    simpl. apply String.eqb_refl.
Qed.

Lemma mapHas_false m k : mapHas m k = false <-> ~ In k (map fst m).
Proof.
  rewrite <- mapHas_true. destruct (mapHas m k); split; intros;
    congruence || (exfalso; auto).
Qed.

(** A key that is not there yet goes last, with the pushed element. *)
Lemma mapPush_new m k n :
  ~ In k (map fst m) -> mapPush (mapSet m k []) k n = m ++ [(k, [n])].
Proof.
  induction m as [| [k' v'] m IH]; simpl; intros Hnin.
  - now rewrite String.eqb_refl.
  - destruct (String.eqb k' k) eqn:E.
    + apply String.eqb_eq in E. exfalso. apply Hnin. now left.
    + simpl. rewrite E. f_equal. apply IH. intros H. apply Hnin. now right.
Qed.

Lemma mapPush_keys m k n : map fst (mapPush m k n) = map fst m.
Proof.
  induction m as [| [k' v'] m IH]; simpl; [reflexivity|].
  destruct (String.eqb k' k); simpl; [reflexivity|]. now rewrite IH.
Qed.

(** Pushing under [k] changes the entry of [k] and no other. *)
Lemma mapPush_In m k n k' occs' :
  NoDup (map fst m) ->
  In (k', occs') (mapPush m k n) ->
  (k' <> k /\ In (k', occs') m) \/
  (k' = k /\ exists occs, In (k, occs) m /\ occs' = occs ++ [n]).
Proof.
  induction m as [| [k0 v0] m IH]; simpl; intros Hnd Hin; [contradiction|].
  inversion Hnd as [| ? ? Hnotin Hnd']; subst.
  destruct (String.eqb k0 k) eqn:E.
  - apply String.eqb_eq in E. subst k0.
    destruct Hin as [Heq | Hin].
    + inversion Heq; subst. right. split; [reflexivity|].
      exists v0. split; [now left | reflexivity].
    + left. split; [| now right].
      intros ->. apply Hnotin. apply in_map_iff. now exists (k, occs').
  - apply String.eqb_neq in E.
    destruct Hin as [Heq | Hin].
    + inversion Heq; subst. left. split; [assumption | now left].
    + destruct (IH Hnd' Hin) as [[Hne H] | [-> [occs [H ->]]]].
      * left. split; [assumption | now right].
      * right. split; [reflexivity|]. exists occs. split; [now right | reflexivity].
Qed.

Lemma StronglySorted_snoc (A : Type) (R : A -> A -> Prop) l y :
  StronglySorted R l -> Forall (fun x => R x y) l ->
  StronglySorted R (l ++ [y]).
Proof.
  induction l as [| x l IH]; simpl; intros Hs Hall.
  - constructor; constructor.
  - inversion Hs; subst. inversion Hall; subst.
    constructor; [now apply IH|].
    apply Forall_app. split; [assumption|]. now constructor.
Qed.

Lemma StronglySorted_weaken (A : Type) (R R' : A -> A -> Prop) l :
  (forall x y, In x l -> In y l -> R x y -> R' x y) ->
  StronglySorted R l -> StronglySorted R' l.
Proof.
  induction l as [| x l IH]; intros Himp Hs; [constructor|].
  inversion Hs as [| ? ? Hs' Hall]; subst. constructor.
  - apply IH; [|assumption]. intros a b Ha Hb. apply Himp; now right.
  - rewrite Forall_forall in *. intros y Hy.
    apply Himp; [now left | now right | now apply Hall].
Qed.

Lemma StronglySorted_map (A B : Type) (f : A -> B) (R : B -> B -> Prop) l :
  StronglySorted R (map f l) <-> StronglySorted (fun a b => R (f a) (f b)) l.
Proof.
  induction l as [| x l IH]; simpl.
  - split; constructor.
  - split; intros Hs; inversion Hs as [| ? ? Hs' Hall]; subst; constructor.
    + now apply IH.
    + rewrite Forall_forall in *. intros y Hy. apply Hall. now apply in_map.
    + now apply IH.
    + rewrite Forall_forall in *. intros y Hy.
      apply in_map_iff in Hy. destruct Hy as [a [<- Ha]]. now apply Hall.
Qed.

Lemma StronglySorted_filter (A : Type) (R : A -> A -> Prop) (f : A -> bool) l :
  StronglySorted R l -> StronglySorted R (filter f l).
Proof.
  induction l as [| x l IH]; simpl; intros Hs; [constructor|].
  inversion Hs as [| ? ? Hs' Hall]; subst.
  destruct (f x); [|now apply IH].
  constructor; [now apply IH|].
  rewrite Forall_forall in *. intros y Hy. apply filter_In in Hy. now apply Hall.
Qed.

(* ================================================================= *)
(** ** What the traversal collects *)

Section Collecting.

Variable generate : Node -> string.
Variable opts : RequiredOptions.

Lemma visitJSXElement_eligible m path :
  visitJSXElement generate opts m path =
  if eligible opts path then
    let k := fingerprintOf generate opts path in
    mapPush (if mapHas m k then m else mapSet m k []) k (node path)
  else m.
Proof.
  unfold visitJSXElement, eligible, fingerprintOf.
  destruct (shouldSkipTag (node path) (skipTags opts)); simpl; [reflexivity|].
  destruct (parentElement (parentPath path)) as [parent|]; simpl.
  - destruct (shouldSkipTag parent (skipTags opts)); simpl; [reflexivity|].
    destruct (isCustomComponent (node path)); reflexivity.
  - destruct (isCustomComponent (node path)); reflexivity.
Qed.

Lemma groupOf_snoc pre path k :
  groupOf generate opts (pre ++ [path]) k =
  groupOf generate opts pre k ++
  (if eligible opts path && String.eqb (fingerprintOf generate opts path) k
   then [node path] else []).
Proof.
  unfold groupOf. rewrite filter_app, map_app. simpl.
  destruct (eligible opts path && String.eqb (fingerprintOf generate opts path) k);
    reflexivity.
Qed.

Lemma groupOf_nil_iff paths k :
  groupOf generate opts paths k = [] <->
  ~ In k (map (fingerprintOf generate opts) (filter (eligible opts) paths)).
Proof.
  unfold groupOf. induction paths as [| p paths IH]; simpl.
  - intuition.
  - destruct (eligible opts p) eqn:Ea; simpl; [|exact IH].
    destruct (String.eqb (fingerprintOf generate opts p) k) eqn:Ek; simpl.
    + apply String.eqb_eq in Ek. split; [discriminate|].
      intros H. exfalso. apply H. now left.
    + apply String.eqb_neq in Ek. rewrite IH. intuition.
Qed.

Lemma collected_nil : collected generate opts [] [].
Proof.
  constructor; simpl.
  - constructor.
  - contradiction.
  - tauto.
  - constructor.
Qed.

Lemma collected_step pre path m :
  collected generate opts pre m ->
  collected generate opts (pre ++ [path]) (visitJSXElement generate opts m path).
Proof.
  intros [Hnd Hgr Hkeys Hord].
  rewrite visitJSXElement_eligible.
  destruct (eligible opts path) eqn:Ea.
  2:{ constructor.
      - assumption.
      - intros k occs Hin. rewrite groupOf_snoc, Ea. simpl.
        rewrite app_nil_r. now apply Hgr.
      - intros k. rewrite filter_app. simpl. rewrite Ea, app_nil_r. apply Hkeys.
      - rewrite filter_app. simpl. rewrite Ea, app_nil_r. exact Hord. }
  set (k0 := fingerprintOf generate opts path).
  set (D := map (fingerprintOf generate opts) (filter (eligible opts) pre)) in *.
  assert (HD : map (fingerprintOf generate opts)
                   (filter (eligible opts) (pre ++ [path])) = D ++ [k0]).
  { rewrite filter_app. simpl. rewrite Ea, map_app. reflexivity. }
  cbv zeta.
  destruct (mapHas m k0) eqn:Eh.
  - (* the group exists already *)
    apply mapHas_true in Eh.
    constructor.
    + now rewrite mapPush_keys.
    + intros k occs Hin. rewrite groupOf_snoc, Ea. simpl.
      apply mapPush_In in Hin; [|assumption].
      destruct Hin as [[Hne Hin] | [-> [occs0 [Hin ->]]]].
      * fold k0. apply not_eq_sym in Hne. apply String.eqb_neq in Hne.
        rewrite Hne, app_nil_r. now apply Hgr.
      * fold k0. rewrite String.eqb_refl.
        destruct (Hgr _ _ Hin) as [-> _]. split; [reflexivity|].
        intros H. apply app_eq_nil in H. destruct H; discriminate.
    + intros k. rewrite mapPush_keys, HD, in_app_iff, Hkeys. simpl.
      split; [tauto|]. intros [H|[<-|[]]]; [assumption|]. now apply Hkeys.
    + rewrite mapPush_keys, HD.
      eapply StronglySorted_weaken; [|exact Hord].
      intros x y Hx Hy Hlt. simpl in Hlt.
      rewrite !firstIndex_app_in; [assumption | now apply Hkeys | now apply Hkeys].
  - (* a new group *)
    apply mapHas_false in Eh.
    assert (HnD : ~ In k0 D) by (intros H; apply Eh; now apply Hkeys).
    rewrite mapPush_new by assumption.
    constructor.
    + rewrite map_app. simpl.
      apply NoDup_app_remove_l with (l := []). simpl.
      apply NoDup_rev in Hnd.
      rewrite <- (rev_involutive (map fst m ++ [k0])).
      apply NoDup_rev. rewrite rev_app_distr. simpl.
      constructor; [|assumption]. now rewrite <- in_rev.
    + intros k occs Hin. rewrite groupOf_snoc, Ea. simpl. fold k0.
      apply in_app_iff in Hin. destruct Hin as [Hin | [Heq | []]].
      * assert (Hne : k0 <> k).
        { intros <-. apply Eh. apply in_map_iff. now exists (k0, occs). }
        apply String.eqb_neq in Hne. rewrite Hne, app_nil_r. now apply Hgr.
      * inversion Heq; subst k occs. rewrite String.eqb_refl.
        assert (Hnil : groupOf generate opts pre k0 = [])
          by now apply groupOf_nil_iff.
        rewrite Hnil. simpl. split; [reflexivity | discriminate].
    + intros k. rewrite HD, map_app, !in_app_iff, Hkeys. simpl. tauto.
    + rewrite HD, map_app. simpl.
      apply StronglySorted_snoc.
      * eapply StronglySorted_weaken; [|exact Hord].
        intros x y Hx Hy Hlt. simpl in Hlt.
        rewrite !firstIndex_app_in;
          [assumption | now apply Hkeys | now apply Hkeys].
      * apply Forall_forall. intros x Hx. apply Hkeys in Hx.
        rewrite firstIndex_app_in by assumption.
        rewrite firstIndex_fresh by assumption.
        now apply firstIndex_lt.
Qed.

Lemma collectCandidates_collected program :
  collected generate opts (traverse program)
    (collectCandidates generate opts program).
Proof.
  unfold collectCandidates.
  apply fold_left_prefix_ind with (P := collected generate opts).
  - exact collected_nil.
  - intros pre x a. apply collected_step.
Qed.

End Collecting.

(* ================================================================= *)
(** ** The loop that builds the results *)

Section Finalizing.

Variable opts : RequiredOptions.
Variable program : Node.

Lemma finalized_step pre entry state :
  finalized opts program pre state ->
  finalized opts program (pre ++ [entry])
    (finalizeEntry opts program state entry).
Proof.
  destruct state as [results counter]. destruct entry as [k occs].
  intros [Hc He Hn Hf]. simpl in *.
  unfold finalizeEntry.
  destruct (List.length occs <? minRepeats opts)%nat eqn:E1.
  { constructor; simpl; try assumption.
    rewrite filter_app. simpl. unfold qualifies at 2. simpl.
    now rewrite E1, app_nil_r. }
  destruct (shouldSkipGroup program occs) eqn:E2.
  { constructor; simpl; try assumption.
    rewrite filter_app. simpl. unfold qualifies at 2. simpl.
    now rewrite E1, E2, app_nil_r. }
  constructor; simpl.
  - rewrite length_app. simpl. lia.
  - rewrite filter_app. simpl. unfold qualifies at 2. simpl.
    rewrite E1, E2. simpl. rewrite map_app, He. reflexivity.
  - rewrite map_app, length_app, Hn. simpl.
    rewrite seq_app, map_app. simpl.
    unfold nameAt at 3. rewrite Hc. repeat f_equal; lia.
  - apply Forall_app. split; [assumption|]. constructor; [|constructor].
    simpl. split; reflexivity.
Qed.

Lemma finalizeGroups_finalized m :
  finalized opts program m (fold_left (finalizeEntry opts program) m ([], 0)).
Proof.
  apply fold_left_prefix_ind with (P := finalized opts program).
  - constructor; simpl; constructor.
  - intros pre x a. apply finalized_step.
Qed.

Lemma finalizeGroups_entries m :
  map entryOf (finalizeGroups opts program m) =
  filter (qualifies opts program) m.
Proof. now destruct (finalizeGroups_finalized m) as [_ H _ _]. Qed.

Lemma finalizeGroups_names m :
  map suggestedName (finalizeGroups opts program m) =
  map (nameAt opts) (seq 1 (List.length (finalizeGroups opts program m))).
Proof. now destruct (finalizeGroups_finalized m) as [_ _ H _]. Qed.

Lemma finalizeGroups_fields m c :
  In c (finalizeGroups opts program m) ->
  example c = hd_error (occurrences c) /\
  count c = List.length (occurrences c).
Proof.
  intros Hin.
  destruct (finalizeGroups_finalized m) as [_ _ _ H]. unfold finalizeGroups in Hin.
  rewrite Forall_forall in H. now apply H.
Qed.

(** A result comes from a group of the map that passes both tests. *)
Lemma finalizeGroups_In m c :
  In c (finalizeGroups opts program m) ->
  In (entryOf c) m /\ qualifies opts program (entryOf c) = true.
Proof.
  intros Hin. apply (in_map entryOf) in Hin.
  rewrite finalizeGroups_entries in Hin. now apply filter_In in Hin.
Qed.

End Finalizing.

(* ================================================================= *)
(** ** The sort *)

Lemma insertByCount_In a l c :
  In c (insertByCount a l) <-> c = a \/ In c l.
Proof.
  induction l as [| b l IH]; simpl.
  - intuition.
  - destruct (count a <? count b)%nat; simpl; rewrite ?IH; intuition.
Qed.

Lemma sortByCount_In l c : In c (sortByCount l) <-> In c l.
Proof.
  induction l as [| a l IH]; simpl; [tauto|].
  rewrite insertByCount_In, IH. intuition.
Qed.

Lemma sortByCount_length l : List.length (sortByCount l) = List.length l.
Proof.
  induction l as [| a l IH]; simpl; [reflexivity|].
  rewrite <- IH. generalize (sortByCount l). intros s.
  induction s as [| b s IHs]; simpl; [reflexivity|].
  destruct (count a <? count b)%nat; simpl; [now rewrite IHs | reflexivity].
Qed.

Section Stability.

Variable before : ComponentCandidate -> ComponentCandidate -> Prop.

Lemma insertByCount_sorted a l :
  StronglySorted (sortedOrder before) l ->
  Forall (before a) l ->
  StronglySorted (sortedOrder before) (insertByCount a l).
Proof.
  induction l as [| b l IH]; simpl; intros Hs Hb.
  - constructor; constructor.
  - inversion Hs as [| ? ? Hs' Hall]; subst.
    inversion Hb as [| ? ? Hab Hb']; subst.
    destruct (count a <? count b)%nat eqn:E.
    + apply Nat.ltb_lt in E. constructor; [now apply IH|].
      rewrite Forall_forall in *. intros y Hy.
      apply -> insertByCount_In in Hy. destruct Hy as [-> | Hy].
      * now left.
      * now apply Hall.
    + apply Nat.ltb_ge in E. constructor; [assumption|].
      rewrite Forall_forall in *. intros y Hy.
      assert (Hyb : count y <= count b).
      { destruct Hy as [<- | Hy]; [lia|].
        destruct (Hall y Hy) as [H | [H _]]; lia. }
      assert (Hay : before a y).
      { destruct Hy as [<- | Hy]; [assumption | now apply Hb']. }
      destruct (Nat.eq_dec (count a) (count y)) as [Heq | Hne].
      * right. now split.
      * left. lia.
Qed.

(** The sort puts larger counts first and keeps equal counts in the
    order they had. *)
Lemma sortByCount_sorted l :
  StronglySorted before l -> StronglySorted (sortedOrder before) (sortByCount l).
Proof.
  induction l as [| a l IH]; intros Hs; [constructor|].
  inversion Hs as [| ? ? Hs' Hall]; subst.
  change (sortByCount (a :: l)) with (insertByCount a (sortByCount l)).
  apply insertByCount_sorted; [now apply IH|].
  apply Forall_forall. intros y Hy. apply -> sortByCount_In in Hy.
  rewrite Forall_forall in Hall. now apply Hall.
Qed.

End Stability.

(* ================================================================= *)
(** ** Identity of elements and parents *)

Lemma uniqueRefs_same_path program p q :
  uniqueRefs program ->
  In p (traverse program) -> In q (traverse program) ->
  ref (node p) = ref (node q) -> p = q.
Proof.
  unfold uniqueRefs. generalize (traverse program). intros l.
  induction l as [| x l IH]; simpl; intros Hnd Hp Hq Heq; [contradiction|].
  inversion Hnd as [| ? ? Hnotin Hnd']; subst.
  destruct Hp as [-> | Hp], Hq as [-> | Hq].
  - reflexivity.
  - exfalso. apply Hnotin. rewrite Heq.
    now apply (in_map (fun path => ref (node path))).
  - exfalso. apply Hnotin. rewrite <- Heq.
    now apply (in_map (fun path => ref (node path))).
  - now apply IH.
Qed.

(** With one object per element, [findParentPath] finds the parent the
    traversal saw. *)
Lemma findParentPath_parent program path :
  uniqueRefs program ->
  In path (traverse program) ->
  parentElement (findParentPath (node path) program) =
  parentElement (parentPath path).
Proof.
  intros Hu Hin. unfold findParentPath.
  destruct (find (fun q => sameNode (node q) (node path)) (traverse program))
    as [q|] eqn:Ef.
  - apply find_some in Ef. destruct Ef as [Hq Hs].
    unfold sameNode in Hs. apply Nat.eqb_eq in Hs.
    assert (q = path) by (eapply uniqueRefs_same_path; eauto). subst q.
    destruct (parentElement (parentPath path)) eqn:E; [assumption | reflexivity].
  - exfalso. apply (find_none _ _ Ef) in Hin.
    unfold sameNode in Hin. now rewrite Nat.eqb_refl in Hin.
Qed.

Lemma includes_true occs n :
  includes occs n = true <-> exists occ, In occ occs /\ ref occ = ref n.
Proof.
  unfold includes. rewrite existsb_exists.
  split; intros [occ [Hin H]]; exists occ; split; try assumption;
    unfold sameNode in *; now apply Nat.eqb_eq.
Qed.

Lemma groupOf_In generate opts paths k occ :
  In occ (groupOf generate opts paths k) <->
  exists path, In path paths /\ node path = occ /\
               eligible opts path = true /\
               fingerprintOf generate opts path = k.
Proof.
  unfold groupOf. rewrite in_map_iff. split.
  - intros [path [Hn Hf]]. apply filter_In in Hf. destruct Hf as [Hin Hb].
    apply andb_true_iff in Hb. destruct Hb as [Ha Hk].
    apply String.eqb_eq in Hk. now exists path.
  - intros [path [Hin [Hn [Ha Hk]]]]. exists path. split; [assumption|].
    apply filter_In. split; [assumption|].
    rewrite Ha. simpl. now apply String.eqb_eq.
Qed.

(* ================================================================= *)
(** ** The returned groups *)

Section Results.

Variable generate : Node -> string.
Variable ast : Node.
Variable options : ExtractorOptions.

Let opts := mergeOptions options.
Let program := programOf ast.

(** A returned group is a group of the map with enough occurrences and
    no occurrence directly under a custom component. *)
Lemma result_entry c :
  In c (findComponentCandidates generate ast options) ->
  In (fingerprint c, occurrences c) (collectCandidates generate opts program) /\
  minRepeats opts <= List.length (occurrences c) /\
  shouldSkipGroup program (occurrences c) = false /\
  occurrences c = groupOf generate opts (traverse program) (fingerprint c) /\
  count c = List.length (occurrences c).
Proof.
  unfold findComponentCandidates. fold opts program. intros Hin.
  apply -> sortByCount_In in Hin.
  destruct (finalizeGroups_fields _ _ _ _ Hin) as [_ Hcount].
  apply finalizeGroups_In in Hin. destruct Hin as [Hin Hq].
  unfold entryOf in *. unfold qualifies in Hq. simpl in Hq.
  apply andb_true_iff in Hq. destruct Hq as [Hlen Hskip].
  apply negb_true_iff in Hlen, Hskip. apply Nat.ltb_ge in Hlen.
  destruct (collectCandidates_collected generate opts program) as [_ Hgr _ _].
  destruct (Hgr _ _ Hin) as [Hocc _].
  repeat split; assumption.
Qed.

(** Every occurrence of a returned group is the node of a path the
    visitor eligible. *)
Lemma result_occurrence c occ :
  In c (findComponentCandidates generate ast options) ->
  In occ (occurrences c) ->
  exists path, In path (traverse program) /\ node path = occ /\
               eligible opts path = true /\
               fingerprintOf generate opts path = fingerprint c.
Proof.
  intros Hc Hocc. destruct (result_entry c Hc) as [_ [_ [_ [Hg _]]]].
  rewrite Hg in Hocc. now apply groupOf_In in Hocc.
Qed.

(** With one object per element, a path whose node a returned group
    includes was eligible, and its parent is no custom component. *)
Lemma result_path c path :
  uniqueRefs program ->
  In c (findComponentCandidates generate ast options) ->
  In path (traverse program) ->
  includes (occurrences c) (node path) = true ->
  eligible opts path = true /\
  fingerprintOf generate opts path = fingerprint c /\
  match parentElement (parentPath path) with
  | Some parent => isCustomComponent parent = false
  | None => True
  end.
Proof.
  intros Hu Hc Hin Hinc.
  apply includes_true in Hinc. destruct Hinc as [occ [Hocc Href]].
  destruct (result_occurrence c occ Hc Hocc) as [q [Hq [Hn [Ha Hk]]]].
  assert (q = path).
  { eapply uniqueRefs_same_path; eauto. now rewrite Hn. }
  subst q. repeat split; try assumption.
  destruct (result_entry c Hc) as [_ [_ [Hskip _]]].
  unfold shouldSkipGroup in Hskip.
  rewrite <- (findParentPath_parent program path Hu Hin).
  rewrite Hn.
  destruct (parentElement (findParentPath occ program)) as [parent|] eqn:E;
    [|exact I].
  destruct (isCustomComponent parent) eqn:Ec; [|reflexivity].
  assert (existsb
            (fun occ => match parentElement (findParentPath occ program) with
                        | Some parent => isCustomComponent parent
                        | None => false
                        end) (occurrences c) = true) as Hex.
  { apply existsb_exists. exists occ. split; [assumption|]. now rewrite E. }
  congruence.
Qed.

(** No eligible path, no group. *)
Lemma no_eligible_no_candidates :
  (forall path, In path (traverse program) -> eligible opts path = false) ->
  findComponentCandidates generate ast options = [].
Proof.
  intros Hnone.
  destruct (findComponentCandidates generate ast options) as [| c l] eqn:E;
    [reflexivity|].
  exfalso.
  assert (Hc : In c (findComponentCandidates generate ast options))
    by (rewrite E; now left).
  destruct (result_entry c Hc) as [Hin _].
  destruct (collectCandidates_collected generate opts program) as [_ Hgr _ _].
  destruct (Hgr _ _ Hin) as [Hocc Hne].
  destruct (occurrences c) as [| occ occs] eqn:Eo; [now apply Hne|].
  assert (Ho : In occ (groupOf generate opts (traverse program) (fingerprint c)))
    by (rewrite <- Hocc; now left).
  apply groupOf_In in Ho. destruct Ho as [path [Hp [_ [Ha _]]]].
  rewrite (Hnone path Hp) in Ha. discriminate.
Qed.

End Results.

(* ================================================================= *)
(** ** No qualifying group: the text comes back as it is *)

Lemma groupOf_length_le generate opts program k :
  List.length (groupOf generate opts (traverse program) k)
  <= sameShapeCount generate opts program k.
Proof.
  unfold groupOf, sameShapeCount. rewrite length_map.
  generalize (traverse program). intros l.
  induction l as [| p l IH]; simpl; [lia|].
  destruct (eligible opts p); simpl;
    destruct (String.eqb (fingerprintOf generate opts p) k); simpl; lia.
Qed.

Lemma few_repeats_no_candidates generate ast options :
  (forall path, In path (traverse (programOf ast)) ->
     sameShapeCount generate (mergeOptions options) (programOf ast)
       (fingerprintOf generate (mergeOptions options) path)
     < minRepeats (mergeOptions options)) ->
  findComponentCandidates generate ast options = [].
Proof.
  intros Hfew.
  destruct (findComponentCandidates generate ast options) as [| c l] eqn:E;
    [reflexivity|].
  exfalso.
  assert (Hc : In c (findComponentCandidates generate ast options))
    by (rewrite E; now left).
  destruct (result_entry generate ast options c Hc)
    as [Hin [Hlen [_ [Hocc _]]]].
  destruct (collectCandidates_collected generate (mergeOptions options)
              (programOf ast)) as [_ Hgr _ _].
  destruct (Hgr _ _ Hin) as [_ Hne].
  destruct (occurrences c) as [| occ occs] eqn:Eo; [now apply Hne|].
  assert (Ho : In occ (groupOf generate (mergeOptions options)
                         (traverse (programOf ast)) (fingerprint c)))
    by (rewrite <- Hocc; now left).
  apply groupOf_In in Ho. destruct Ho as [path [Hp [_ [_ Hk]]]].
  specialize (Hfew path Hp). rewrite Hk in Hfew.
  pose proof (groupOf_length_le generate (mergeOptions options)
                (programOf ast) (fingerprint c)) as Hle.
  rewrite <- Hocc in Hle. lia.
Qed.

(** [extractComponents] once the text has parsed: the exception of the
    traversal, or the result built from the groups. *)
Lemma extractComponents_parsed parse generate code options body :
  parse code = Return body ->
  extractComponents parse generate code options
  = match traversalError (Program body) with
    | Some e => Throw e
    | None =>
        match findComponentCandidates generate (File (Program body)) options with
        | [] => Return {| code := code; components := []; changed := false |}
        | c :: l =>
            Return
              {| code :=
                   generate
                     (File (Program
                              (programBody
                                 (fst (processCandidates options body (c :: l))))));
                 components := snd (processCandidates options body (c :: l));
                 changed := true |}
        end
    end.
Proof.
  intros Hparse. unfold extractComponents, findComponentCandidatesCall.
  rewrite Hparse. cbn [programOf].
  destruct (traversalError (Program body)); [reflexivity|].
  destruct (findComponentCandidates generate (File (Program body)) options)
    as [| c l]; [reflexivity|].
  now destruct (processCandidates options body (c :: l)).
Qed.

(** C2 (no-op behaviour).  When the text parses, the traversal of
    [findComponentCandidates] runs to its end and the function yields no
    group, [extractComponents] returns [changed = false], an empty
    [components] list and the input string itself as [code]; that is
    the case in particular when every element of the tree has fewer than
    [minRepeats] elements of its fingerprint.  When the traversal throws,
    as it does on a program with a function declaration,
    [extractComponents] throws and returns nothing, whatever the groups
    are. *)
Theorem C2_no_op_unless_traversal_throws parse generate code options body :
  parse code = Return body ->
  (forall e, traversalError (Program body) = Some e ->
     extractComponents parse generate code options = Throw e)
  /\
  (traversalError (Program body) = None ->
   findComponentCandidates generate (File (Program body)) options = [] ->
   extractComponents parse generate code options =
   Return {| code := code; components := []; changed := false |})
  /\
  (traversalError (Program body) = None ->
   (forall path, In path (traverse (Program body)) ->
      sameShapeCount generate (mergeOptions options) (Program body)
        (fingerprintOf generate (mergeOptions options) path)
      < minRepeats (mergeOptions options)) ->
   extractComponents parse generate code options =
   Return {| code := code; components := []; changed := false |}).
Proof.
  intros Hparse.
  rewrite (extractComponents_parsed parse generate code options body Hparse).
  split; [|split].
  - intros e He. now rewrite He.
  - intros Hrun Hnil. now rewrite Hrun, Hnil.
  - intros Hrun Hfew. rewrite Hrun.
    now rewrite (few_repeats_no_candidates generate (File (Program body))
                   options Hfew).
Qed.

(** The failing input [function App(){ return <div><p/><span/></div>; }]
    has no two elements of one shape, and [extractComponents] throws on
    it; on [const x = <div><p/><span/></div>;] it returns the text. *)
Lemma C2_no_op_unless_traversal_throws_witness :
  (forall path, In path (traverse (Program functionApp)) ->
     sameShapeCount sampleGenerate (mergeOptions noOptions) (Program functionApp)
       (fingerprintOf sampleGenerate (mergeOptions noOptions) path)
     < minRepeats (mergeOptions noOptions))
  /\
  extractComponents (fun _ => Return functionApp) sampleGenerate
    "function App(){ return <div><p/><span/></div>; }" noOptions
  = Throw scopeError
  /\
  extractComponents (fun _ => Return singleShapes) sampleGenerate
    "const x = <div><p/><span/></div>;" noOptions =
  Return {| code := "const x = <div><p/><span/></div>;";
            components := [];
            changed := false |}.
Proof.
  split; [|split].
  - intros path Hin. simpl in Hin.
    destruct Hin as [<- | [<- | [<- | []]]]; vm_compute; lia.
  - exact (proj1 (C2_no_op_unless_traversal_throws
                    (fun _ => Return functionApp) sampleGenerate
                    "function App(){ return <div><p/><span/></div>; }"
                    noOptions functionApp eq_refl)
             scopeError eq_refl).
  - apply (proj2 (proj2 (C2_no_op_unless_traversal_throws
                           (fun _ => Return singleShapes) sampleGenerate
                           "const x = <div><p/><span/></div>;" noOptions
                           singleShapes eq_refl)));
      [reflexivity|].
    intros path Hin. simpl in Hin.
    destruct Hin as [<- | [<- | [<- | []]]]; vm_compute; lia.
Defined.

(* ================================================================= *)
(** ** Groups under a custom component *)

Lemma NoDup_keys_functional (m : CandidateMap) k v v' :
  NoDup (map fst m) -> In (k, v) m -> In (k, v') m -> v = v'.
Proof.
  induction m as [| [k0 v0] m IH]; simpl; intros Hnd H1 H2; [contradiction|].
  inversion Hnd as [| ? ? Hnotin Hnd']; subst.
  destruct H1 as [E1 | H1], H2 as [E2 | H2].
  - congruence.
  - inversion E1; subst. exfalso. apply Hnotin.
    apply in_map_iff. now exists (k, v').
  - inversion E2; subst. exfalso. apply Hnotin.
    apply in_map_iff. now exists (k, v).
  - now apply IH.
Qed.

Ltac distinct_refs :=
  unfold uniqueRefs; vm_compute;
  repeat (constructor; [simpl; intuition discriminate|]); constructor.

(** C3, as the code has it.  The loop over a group looks at the parent
    [findParentPath] returns, the immediate parent element: when an
    occurrence of a group of the map stands directly under a custom
    component, no returned group has the fingerprint of that group. *)
Theorem C3_custom_parent_drops_group generate ast options k occs path parent :
  uniqueRefs (programOf ast) ->
  In (k, occs)
     (collectCandidates generate (mergeOptions options) (programOf ast)) ->
  In path (traverse (programOf ast)) ->
  includes occs (node path) = true ->
  parentElement (parentPath path) = Some parent ->
  isCustomComponent parent = true ->
  forall c, In c (findComponentCandidates generate ast options) ->
            fingerprint c <> k.
Proof.
  intros Hu Hentry Hin Hinc Hparent Hcustom c Hc Hk. subst k.
  destruct (result_entry generate ast options c Hc) as [Hentry' _].
  destruct (collectCandidates_collected generate (mergeOptions options)
              (programOf ast)) as [Hnd _ _ _].
  assert (occs = occurrences c)
    by (eapply NoDup_keys_functional; eauto).
  subst occs.
  destruct (result_path generate ast options c path Hu Hc Hin Hinc)
    as [_ [_ Hp]].
  rewrite Hparent in Hp. congruence.
Qed.

Lemma C3_custom_parent_drops_group_witness :
  uniqueRefs (Program directlyInCard) /\
  In ("p:0:0:", [elem 3 "p" [] []; elem 4 "p" [] []])
     (collectCandidates sampleGenerate DEFAULT_OPTIONS (Program directlyInCard)) /\
  In (pathAt 2 directlyInCard) (traverse (Program directlyInCard)) /\
  includes [elem 3 "p" [] []; elem 4 "p" [] []]
           (node (pathAt 2 directlyInCard)) = true /\
  parentElement (parentPath (pathAt 2 directlyInCard))
  = Some (elem 2 "Card" [] [el 3 "p" [] []; el 4 "p" [] []]) /\
  isCustomComponent (elem 2 "Card" [] [el 3 "p" [] []; el 4 "p" [] []]) = true /\
  forall c,
    In c (findComponentCandidates sampleGenerate (File (Program directlyInCard))
            noOptions) ->
    fingerprint c <> "p:0:0:".
Proof.
  assert (Hu : uniqueRefs (Program directlyInCard)) by distinct_refs.
  assert (Hentry :
    In ("p:0:0:", [elem 3 "p" [] []; elem 4 "p" [] []])
       (collectCandidates sampleGenerate DEFAULT_OPTIONS (Program directlyInCard)))
    by (vm_compute; left; reflexivity).
  assert (Hin : In (pathAt 2 directlyInCard) (traverse (Program directlyInCard)))
    by (vm_compute; right; right; left; reflexivity).
  repeat split; try assumption; try reflexivity.
  exact (C3_custom_parent_drops_group sampleGenerate
           (File (Program directlyInCard)) noOptions
           "p:0:0:" [elem 3 "p" [] []; elem 4 "p" [] []]
           (pathAt 2 directlyInCard)
           (elem 2 "Card" [] [el 3 "p" [] []; el 4 "p" [] []])
           Hu Hentry Hin eq_refl eq_refl eq_refl).
Defined.

(** The claim C3 as worded fails.  In
    [<div><Card><section><p/><p/></section></Card></div>] the two [p]
    have the custom component [Card] on their ancestor chain, above their
    parent [section], and their group is returned. *)
Lemma C3_counterexample :
  map (fun c => (fingerprint c, map ref (occurrences c)))
      (findComponentCandidates sampleGenerate (File (Program insideCard))
         noOptions)
  = [("p:0:0:", [4; 5])] /\
  ref (node (pathAt 3 insideCard)) = 4 /\
  map getTagName (ancestorElements (pathAt 3 insideCard))
  = [Some "section"; Some "Card"; Some "div"] /\
  existsb isCustomComponent (ancestorElements (pathAt 3 insideCard)) = true.
Proof. vm_compute. repeat split. Qed.

(** C4, as the code has it.  The one test on what stands above an
    occurrence is the test of its parent: an occurrence of a returned
    group is no custom component and stands directly under a JSX element
    that is none either.  Nothing excludes an occurrence nested in an
    occurrence of a returned group. *)
Theorem C4_occurrence_not_under_custom generate ast options c path :
  uniqueRefs (programOf ast) ->
  In c (findComponentCandidates generate ast options) ->
  In path (traverse (programOf ast)) ->
  includes (occurrences c) (node path) = true ->
  isCustomComponent (node path) = false /\
  exists parent,
    parentElement (parentPath path) = Some parent /\
    isCustomComponent parent = false.
Proof.
  intros Hu Hc Hin Hinc.
  destruct (result_path generate ast options c path Hu Hc Hin Hinc)
    as [Ha [_ Hp]].
  unfold eligible in Ha. apply andb_true_iff in Ha. destruct Ha as [_ Ha].
  destruct (parentElement (parentPath path)) as [parent|]; [|discriminate].
  apply andb_true_iff in Ha. destruct Ha as [_ Ha].
  apply negb_true_iff in Ha. split; [assumption|].
  exists parent. split; [reflexivity | assumption].
Qed.

Lemma C4_occurrence_not_under_custom_witness :
  uniqueRefs (Program nestedGroups) /\
  In (pathAt 2 nestedGroups) (traverse (Program nestedGroups)) /\
  isCustomComponent (node (pathAt 2 nestedGroups)) = false /\
  exists parent,
    parentElement (parentPath (pathAt 2 nestedGroups)) = Some parent /\
    isCustomComponent parent = false.
Proof.
  assert (Hu : uniqueRefs (Program nestedGroups)) by distinct_refs.
  assert (Hin : In (pathAt 2 nestedGroups) (traverse (Program nestedGroups)))
    by (vm_compute; right; right; left; reflexivity).
  split; [exact Hu|]. split; [exact Hin|].
  apply (C4_occurrence_not_under_custom sampleGenerate
           (File (Program nestedGroups)) noOptions
           {| fingerprint := "p:0:0:";
              occurrences := [elem 3 "p" [] []; elem 5 "p" [] []];
              example := Some (elem 3 "p" [] []);
              count := 2;
              suggestedName := "Extracted2" |}
           (pathAt 2 nestedGroups) Hu).
  - vm_compute. right. left. reflexivity.
  - exact Hin.
  - reflexivity.
Defined.

(** The claim C4 as worded fails.  In
    [<main><div><p/></div><div><p/></div></main>] both the group of the
    two [div] and the group of the two [p] are returned, and the [p] of
    identity 3 has the [div] of identity 2, an occurrence of the first
    group, on its ancestor chain. *)
Lemma C4_counterexample :
  map (fun c => (fingerprint c, map ref (occurrences c)))
      (findComponentCandidates sampleGenerate (File (Program nestedGroups))
         noOptions)
  = [("div:0:1:", [2; 4]); ("p:0:0:", [3; 5])] /\
  ref (node (pathAt 2 nestedGroups)) = 3 /\
  map ref (ancestorElements (pathAt 2 nestedGroups)) = [2; 1].
Proof. vm_compute. repeat split. Qed.

(* ================================================================= *)
(** ** Names and order of the results *)

(** Before the sort the results stand in the order their fingerprints
    were discovered. *)
Lemma finalizeGroups_discovery_order generate opts program :
  StronglySorted
    (fun a b =>
       firstDiscovery generate opts program (fingerprint a)
       < firstDiscovery generate opts program (fingerprint b))
    (finalizeGroups opts program (collectCandidates generate opts program)).
Proof.
  destruct (collectCandidates_collected generate opts program)
    as [_ _ _ Hord].
  pose proof (proj1 (StronglySorted_map _ _ (@fst string (list JSXElement)) _ _)
                Hord) as Hm.
  apply (StronglySorted_filter _ _ (qualifies opts program)) in Hm.
  rewrite <- finalizeGroups_entries in Hm.
  exact (proj1 (StronglySorted_map _ _ entryOf _ _) Hm).
Qed.

(** C5, as the code has it.  The counter runs in the loop over the map,
    before the sort: listed in the order of discovery, the groups that
    pass the tests carry the names base1, base2, ... in that order, and
    the returned list is that list sorted by count. *)
Theorem C5_names_follow_discovery generate ast options :
  let opts := mergeOptions options in
  let program := programOf ast in
  let unsorted :=
    finalizeGroups opts program (collectCandidates generate opts program) in
  findComponentCandidates generate ast options = sortByCount unsorted /\
  map suggestedName unsorted
  = map (nameAt opts) (seq 1 (List.length unsorted)) /\
  StronglySorted
    (fun a b =>
       firstDiscovery generate opts program (fingerprint a)
       < firstDiscovery generate opts program (fingerprint b))
    unsorted.
Proof.
  intros opts program unsorted. split; [reflexivity|]. split.
  - apply finalizeGroups_names.
  - apply finalizeGroups_discovery_order.
Qed.

(** The claim C5 as worded fails.  In
    [<main><p/><p/><span/><span/><span/></main>] the group of the three
    [span] is processed first and is named [Extracted2]; [Extracted1] is
    the group of the two [p], discovered first. *)
Lemma C5_counterexample :
  map (fun c => (suggestedName c, fingerprint c, count c))
      (findComponentCandidates sampleGenerate (File (Program twoThenThree))
         noOptions)
  = [("Extracted2", "span:0:0:", 3); ("Extracted1", "p:0:0:", 2)].
Proof. vm_compute. reflexivity. Qed.

Lemma processCandidates_report options body candidates :
  snd (processCandidates options body candidates) = map reportOf candidates.
Proof.
  unfold processCandidates.
  assert (Hgen : forall state,
            snd (fold_left (processCandidate options) candidates state)
            = snd state ++ map reportOf candidates).
  { induction candidates as [| c l IH]; intros state; simpl.
    - now rewrite app_nil_r.
    - rewrite IH. destruct state as [h acc]. unfold processCandidate.
      destruct (extractComponentDeclaration h c options) as [decl next].
      simpl. now rewrite <- app_assoc. }
  now rewrite Hgen.
Qed.

(** C6 (result ordering).  The list [findComponentCandidates] returns is
    sorted by descending occurrence count, and of two groups with equal
    counts the one whose fingerprint was discovered first in the
    traversal comes first.  [extractComponents] reports the groups in
    that same order. *)
Theorem C6_results_sorted generate ast options :
  StronglySorted
    (resultOrder generate (mergeOptions options) (programOf ast))
    (findComponentCandidates generate ast options)
  /\
  (forall parse code body result,
     parse code = Return body ->
     ast = File (Program body) ->
     extractComponents parse generate code options = Return result ->
     components result
     = map reportOf (findComponentCandidates generate ast options)).
Proof.
  split.
  - unfold findComponentCandidates.
    eapply StronglySorted_weaken;
      [| apply sortByCount_sorted, finalizeGroups_discovery_order ].
    intros a b _ _ H. exact H.
  - intros parse code body result Hparse -> Hres.
    rewrite (extractComponents_parsed parse generate code options body Hparse)
      in Hres.
    destruct (traversalError (Program body)); [discriminate|].
    destruct (findComponentCandidates generate (File (Program body)) options)
      as [| c l] eqn:E.
    + inversion Hres. reflexivity.
    + inversion Hres. simpl. apply processCandidates_report.
Qed.

Lemma C6_results_sorted_witness :
  map (fun c => (fingerprint c, count c))
      (findComponentCandidates sampleGenerate (File (Program twoThenThree))
         noOptions)
  = [("span:0:0:", 3); ("p:0:0:", 2)] /\
  components
    {| code := sampleGenerate (File (Program twoThenThreeRewritten));
       components :=
         [ {| Extracted.name := "Extracted2"; Extracted.count := 3;
              Extracted.fingerprint := "span:0:0:" |};
           {| Extracted.name := "Extracted1"; Extracted.count := 2;
              Extracted.fingerprint := "p:0:0:" |} ];
       changed := true |}
  = map reportOf
        (findComponentCandidates sampleGenerate (File (Program twoThenThree))
           noOptions).
Proof.
  split; [reflexivity|].
  apply (proj2 (C6_results_sorted sampleGenerate (File (Program twoThenThree))
                  noOptions)
           (fun _ => Return twoThenThree)
           "const x = <main><p/><p/><span/><span/><span/></main>;"
           twoThenThree _ eq_refl eq_refl).
  vm_compute. reflexivity.
Defined.

(* ================================================================= *)
(** ** Skipped tags and names that are no identifier *)

Lemma shouldSkipTag_lowercase n tagName skipTags :
  getTagName n = Some tagName ->
  has skipTags (toLowerCase tagName) = true ->
  shouldSkipTag n skipTags = true.
Proof.
  intros Hn Hhas. unfold shouldSkipTag. rewrite Hn.
  destruct (String.eqb tagName ""); [reflexivity | assumption].
Qed.

Lemma eligible_not_skipped opts path :
  eligible opts path = true ->
  shouldSkipTag (node path) (skipTags opts) = false /\
  exists parent,
    parentElement (parentPath path) = Some parent /\
    shouldSkipTag parent (skipTags opts) = false.
Proof.
  unfold eligible. intros Ha.
  apply andb_true_iff in Ha. destruct Ha as [Hown Hp].
  apply negb_true_iff in Hown. split; [assumption|].
  destruct (parentElement (parentPath path)) as [parent|]; [|discriminate].
  apply andb_true_iff in Hp. destruct Hp as [Hp _].
  apply negb_true_iff in Hp. now exists parent.
Qed.


(** The traversal of leaves under one parent: one path per leaf. *)
Lemma traverse_leaves parent tag refs path :
  In path (flat_map (traverseNode parent) (leaves tag refs)) ->
  exists r, node path = elem r tag [] [].
Proof.
  induction refs as [| r refs IH]; simpl; intros Hin; [contradiction|].
  destruct Hin as [<- | Hin]; [now exists r | now apply IH].
Qed.

Lemma repeatedLeaf_not_eligible opts r0 parentTag tag refs path :
  has (skipTags opts) (toLowerCase tag) = true ->
  In path (traverse (Program (repeatedLeaf r0 parentTag tag refs))) ->
  eligible opts path = false.
Proof.
  intros Hhas Hin. unfold traverse, repeatedLeaf, moduleOf in Hin.
  simpl in Hin. rewrite !app_nil_r in Hin.
  destruct Hin as [<- | Hin].
  - unfold eligible. simpl. apply andb_false_r.
  - apply traverse_leaves in Hin. destruct Hin as [r Hn].
    unfold eligible. rewrite Hn.
    rewrite (shouldSkipTag_lowercase (elem r tag [] []) tag); [reflexivity | reflexivity | assumption].
Qed.

(** No function declaration is among leaves under one parent: the
    traversal runs to its end. *)
Lemma repeatedLeaf_traversal r0 parentTag tag refs :
  traversalError (Program (repeatedLeaf r0 parentTag tag refs)) = None.
Proof.
  unfold traversalError, repeatedLeaf, moduleOf, el, elem. cbn.
  replace (existsb reachesScope (leaves tag refs)) with false;
    [reflexivity|].
  induction refs as [| r refs IH]; [reflexivity | exact IH].
Qed.

(** C9, as the code has it.  The tag name is put in lower case before
    it is looked up: an element whose lower-cased tag, or whose parent
    element's lower-cased tag, is in [skipTags] is in no returned group.
    In particular a leaf tag skipped in that sense, repeated under one
    parent any number of times (ten, say), gives no group, and
    [extractComponents] returns the text with [changed = false]. *)
Theorem C9_skip_tags_excluded generate options :
  (forall ast path,
     uniqueRefs (programOf ast) ->
     In path (traverse (programOf ast)) ->
     (exists tagName,
        getTagName (node path) = Some tagName /\
        has (skipTags (mergeOptions options)) (toLowerCase tagName) = true) \/
     (exists parent tagName,
        parentElement (parentPath path) = Some parent /\
        getTagName parent = Some tagName /\
        has (skipTags (mergeOptions options)) (toLowerCase tagName) = true) ->
     forall c, In c (findComponentCandidates generate ast options) ->
               includes (occurrences c) (node path) = false)
  /\
  (forall parse code r0 parentTag tag refs,
     has (skipTags (mergeOptions options)) (toLowerCase tag) = true ->
     parse code = Return (repeatedLeaf r0 parentTag tag refs) ->
     findComponentCandidates generate
       (File (Program (repeatedLeaf r0 parentTag tag refs))) options = [] /\
     extractComponents parse generate code options =
     Return {| code := code; components := []; changed := false |}).
Proof.
  split.
  - intros ast path Hu Hin Hskip c Hc.
    destruct (includes (occurrences c) (node path)) eqn:Hinc; [|reflexivity].
    exfalso.
    destruct (result_path generate ast options c path Hu Hc Hin Hinc)
      as [Ha _].
    apply eligible_not_skipped in Ha.
    destruct Ha as [Hown [parent [Hp Hps]]].
    destruct Hskip as [[t [Ht Hhas]] | [parent' [t [Hp' [Ht Hhas]]]]].
    + rewrite (shouldSkipTag_lowercase _ _ _ Ht Hhas) in Hown. discriminate.
    + rewrite Hp in Hp'. inversion Hp'; subst parent'.
      rewrite (shouldSkipTag_lowercase _ _ _ Ht Hhas) in Hps. discriminate.
  - intros parse code r0 parentTag tag refs Hhas Hparse.
    assert (Hnil : findComponentCandidates generate
                     (File (Program (repeatedLeaf r0 parentTag tag refs)))
                     options = []).
    { apply no_eligible_no_candidates. intros path Hin.
      eapply repeatedLeaf_not_eligible; eauto. }
    split; [exact Hnil|].
    rewrite (extractComponents_parsed parse generate code options _ Hparse).
    now rewrite repeatedLeaf_traversal, Hnil.
Qed.

Lemma C9_skip_tags_excluded_witness :
  (uniqueRefs (Program (repeatedLeaf 1 "div" "clipPath" [2; 3])) /\
   In (pathAt 1 (repeatedLeaf 1 "div" "clipPath" [2; 3]))
      (traverse (Program (repeatedLeaf 1 "div" "clipPath" [2; 3]))) /\
   getTagName (node (pathAt 1 (repeatedLeaf 1 "div" "clipPath" [2; 3])))
   = Some "clipPath" /\
   has (skipTags DEFAULT_OPTIONS) (toLowerCase "clipPath") = true /\
   forall c,
     In c (findComponentCandidates sampleGenerate
             (File (Program (repeatedLeaf 1 "div" "clipPath" [2; 3]))) noOptions) ->
     includes (occurrences c)
       (node (pathAt 1 (repeatedLeaf 1 "div" "clipPath" [2; 3]))) = false)
  /\
  (has (skipTags DEFAULT_OPTIONS) (toLowerCase "path") = true /\
   findComponentCandidates sampleGenerate
     (File (Program (repeatedLeaf 1 "svg" "path" (seq 2 10)))) noOptions = [] /\
   extractComponents
     (fun _ => Return (repeatedLeaf 1 "svg" "path" (seq 2 10)))
     sampleGenerate "const x = <svg>...</svg>;" noOptions =
   Return {| code := "const x = <svg>...</svg>;";
             components := [];
             changed := false |}).
Proof.
  assert (Hu : uniqueRefs (Program (repeatedLeaf 1 "div" "clipPath" [2; 3])))
    by distinct_refs.
  assert (Hin : In (pathAt 1 (repeatedLeaf 1 "div" "clipPath" [2; 3]))
                   (traverse (Program (repeatedLeaf 1 "div" "clipPath" [2; 3]))))
    by (vm_compute; right; left; reflexivity).
  split.
  - repeat split; try assumption.
    apply (proj1 (C9_skip_tags_excluded sampleGenerate noOptions)
             (File (Program (repeatedLeaf 1 "div" "clipPath" [2; 3])))
             (pathAt 1 (repeatedLeaf 1 "div" "clipPath" [2; 3])) Hu Hin).
    left. exists "clipPath". split; reflexivity.
  - split; [reflexivity|].
    apply (proj2 (C9_skip_tags_excluded sampleGenerate noOptions)
             (fun _ => Return (repeatedLeaf 1 "svg" "path" (seq 2 10)))
             "const x = <svg>...</svg>;" 1 "svg" "path" (seq 2 10)
             eq_refl eq_refl).
Defined.

(** The claim C9 as worded fails when [skipTags] holds a name with an
    upper-case letter.  With [skipTags = { "clipPath" }] the tag
    [clipPath] is in [skipTags], the lookup is of ["clippath"], and
    [<div><clipPath/><clipPath/></div>] gives a group of the two
    [clipPath]; ten of them give a group of ten. *)
Lemma C9_counterexample :
  In "clipPath" (skipTags (mergeOptions skipClipPath)) /\
  map (fun c => (fingerprint c, map getTagName (occurrences c)))
      (findComponentCandidates sampleGenerate
         (File (Program (repeatedLeaf 1 "div" "clipPath" [2; 3]))) skipClipPath)
  = [("clipPath:0:0:", [Some "clipPath"; Some "clipPath"])] /\
  map (fun c => (fingerprint c, count c))
      (findComponentCandidates sampleGenerate
         (File (Program (repeatedLeaf 1 "div" "clipPath" (seq 2 10))))
         skipClipPath)
  = [("clipPath:0:0:", 10)].
Proof. vm_compute. repeat split. now left. Qed.



(* ================================================================= *)
(** ** The fingerprint *)

(** C7 (content-blind fingerprint).  The key is made of the tag name,
    the number of attributes, the number of children and the class
    token: two elements that agree on the four have the same key, and
    what the children are (their text, their expressions) plays no part,
    their number only. *)
Theorem C7_fingerprint_content_blind generate options :
  (forall a b,
     fingerprintTagName (openingElement a) = fingerprintTagName (openingElement b) ->
     List.length (attributes (openingElement a))
     = List.length (attributes (openingElement b)) ->
     List.length (children a) = List.length (children b) ->
     fingerprintClassNames generate (attributes (openingElement a))
     = fingerprintClassNames generate (attributes (openingElement b)) ->
     computeTreeFingerprint generate a options
     = computeTreeFingerprint generate b options)
  /\
  (forall r r' opening cs cs',
     List.length cs = List.length cs' ->
     computeTreeFingerprint generate (mkJSXElement r opening cs) options
     = computeTreeFingerprint generate (mkJSXElement r' opening cs') options).
Proof.
  split.
  - intros a b Htag Hattrs Hchildren Hclass.
    unfold computeTreeFingerprint. now rewrite Htag, Hattrs, Hchildren, Hclass.
  - intros r r' opening cs cs' Hlen.
    unfold computeTreeFingerprint. simpl. now rewrite Hlen.
Qed.

Lemma C7_fingerprint_content_blind_witness :
  children rowWithText = [JSXText "A"] /\
  children rowWithExpression = [JSXExpressionContainer (Opaque "x" [])] /\
  computeTreeFingerprint sampleGenerate rowWithText tt = "p:1:1:row" /\
  computeTreeFingerprint sampleGenerate rowWithText tt
  = computeTreeFingerprint sampleGenerate rowWithExpression tt.
Proof.
  split; [reflexivity|]. split; [reflexivity|]. split; [reflexivity|].
  apply (proj1 (C7_fingerprint_content_blind sampleGenerate tt)
           rowWithText rowWithExpression); reflexivity.
Defined.

(* ================================================================= *)
(** ** Text that does not parse *)

(** C8, as the code has it.  [extractComponents] has no handler around
    the parser: when [parse] throws, the call throws that error, and
    nothing is returned, neither the original text nor any other. *)
Theorem C8_parse_error_is_thrown parse generate code options e :
  parse code = Throw e ->
  extractComponents parse generate code options = Throw e.
Proof.
  intros Hparse. unfold extractComponents. now rewrite Hparse.
Qed.

Lemma C8_parse_error_is_thrown_witness :
  extractComponents (fun _ => Throw "SyntaxError: Unterminated JSX contents")
    sampleGenerate "const x = <div>;" noOptions
  = Throw "SyntaxError: Unterminated JSX contents".
Proof.
  apply (C8_parse_error_is_thrown
           (fun _ => Throw "SyntaxError: Unterminated JSX contents")
           sampleGenerate "const x = <div>;" noOptions
           "SyntaxError: Unterminated JSX contents" eq_refl).
Defined.

(** The claim C8 as worded fails: on a text the parser rejects, the call
    completes by throwing and returns no result that carries the
    original text. *)
Lemma C8_counterexample :
  extractComponents
    (fun _ => Throw "SyntaxError: Unterminated JSX contents")
    sampleGenerate "const x = <div>;" noOptions
  = Throw "SyntaxError: Unterminated JSX contents" /\
  ~ exists result,
      extractComponents
        (fun _ => Throw "SyntaxError: Unterminated JSX contents")
        sampleGenerate "const x = <div>;" noOptions
      = Return result /\
      code result = "const x = <div>;".
Proof.
  split; [reflexivity|].
  intros [result [H _]]. discriminate H.
Qed.

(* ================================================================= *)
(** ** Replacing the occurrences *)

Lemma flat_map_parent_free (l : list Node) p q :
  Forall (fun n => forall p q,
            map node (traverseNode p n) = map node (traverseNode q n)) l ->
  map node (flat_map (traverseNode p) l) = map node (flat_map (traverseNode q) l).
Proof.
  induction 1 as [| x l Hx _ IH]; simpl; [reflexivity|].
  now rewrite !map_app, IH, (Hx p q).
Qed.

Lemma parent_free :
  forall n p q, map node (traverseNode p n) = map node (traverseNode q n).
Proof.
  apply (Node_induction
           (fun n => forall p q,
              map node (traverseNode p n) = map node (traverseNode q n))
           (fun e => forall p q,
              map node (traverseNode p (JSXElementNode e))
              = map node (traverseNode q (JSXElementNode e)))
           (fun o => forall p q,
              map node (traverseOpening p o) = map node (traverseOpening q o)));
    simpl; intros; auto using flat_map_parent_free.
  - rewrite !map_app. f_equal; auto using flat_map_parent_free.
  - rewrite !map_app. f_equal. f_equal; auto using flat_map_parent_free.
Qed.

Lemma opening_parent_free o p q :
  map node (traverseOpening p o) = map node (traverseOpening q o).
Proof.
  exact (parent_free (JSXOpeningElementNode o) p q).
Qed.

Lemma nodes_flat_map p l :
  map node (flat_map (traverseNode p) l) = flat_map elems l.
Proof.
  induction l as [| x l IH]; simpl; [reflexivity|].
  rewrite map_app, IH. unfold elems at 1. now rewrite (parent_free x p None).
Qed.

Lemma nodes_element p r o cs :
  map node (traverseNode p (JSXElementNode (mkJSXElement r o cs)))
  = mkJSXElement r o cs :: elemsOpening o ++ flat_map elems cs.
Proof.
  simpl. rewrite map_app, nodes_flat_map. unfold elemsOpening.
  now rewrite (opening_parent_free o _ None).
Qed.

Ltac to_elems :=
  unfold elems, elemsOpening; simpl;
  rewrite ?map_app, ?nodes_flat_map;
  repeat rewrite (parent_free _ (Some _) None);
  repeat rewrite (opening_parent_free _ (Some _) None).

(** The elements below a node, constructor by constructor. *)
Lemma elems_one (n child : Node) :
  (forall p, traverseNode p n
             = traverseNode (Some (mkAnyPath n p)) child) ->
  elems n = elems child.
Proof.
  intros H. unfold elems. rewrite H. apply parent_free.
Qed.

Lemma elems_many (n : Node) (l : list Node) :
  (forall p, traverseNode p n
             = flat_map (traverseNode (Some (mkAnyPath n p))) l) ->
  elems n = flat_map elems l.
Proof.
  intros H. unfold elems. rewrite H. apply nodes_flat_map.
Qed.

Lemma elems_element r o cs :
  elems (JSXElementNode (mkJSXElement r o cs))
  = mkJSXElement r o cs :: elemsOpening o ++ flat_map elems cs.
Proof. apply nodes_element. Qed.

Lemma elemsOpening_attributes nm attrs sc :
  elemsOpening (mkJSXOpeningElement nm attrs sc) = flat_map elems attrs.
Proof. unfold elemsOpening. simpl. apply nodes_flat_map. Qed.

Lemma NoDup_app_disjoint (A : Type) (a b : list A) x :
  NoDup (a ++ b) -> In x a -> In x b -> False.
Proof.
  induction a as [| y a IH]; simpl; intros Hnd Ha Hb; [contradiction|].
  inversion Hnd as [| ? ? Hy Hnd']; subst.
  destruct Ha as [-> | Ha]; [|now apply IH].
  apply Hy, in_or_app. now right.
Qed.

Lemma hd_error_app_nil (A : Type) (a b : list A) :
  hd_error a = None -> hd_error (a ++ b) = hd_error b.
Proof. now destruct a. Qed.

Lemma hd_error_app_some (A : Type) (a b : list A) x :
  hd_error a = Some x -> hd_error (a ++ b) = Some x.
Proof. now destruct a. Qed.

(** Where the object [target] does not occur, nothing is put in its
    place. *)
Lemma list_substitute_absent target replacement l :
  Forall (fun n => ~ In target (map ref (elems n)) ->
                   substitute target replacement n = n) l ->
  ~ In target (map ref (flat_map elems l)) ->
  map (substitute target replacement) l = l.
Proof.
  induction 1 as [| x l Hx _ IH]; simpl; intros Hno; [reflexivity|].
  rewrite map_app, in_app_iff in Hno.
  rewrite Hx, IH; [reflexivity | |]; intros Hin; apply Hno; auto.
Qed.

Lemma substitute_absent target replacement :
  forall n, ~ In target (map ref (elems n)) ->
            substitute target replacement n = n.
Proof.
  apply (Node_induction
           (fun n => ~ In target (map ref (elems n)) ->
                     substitute target replacement n = n)
           (fun e => ~ In target (map ref (elems (JSXElementNode e))) ->
                     substitute target replacement (JSXElementNode e)
                     = JSXElementNode e)
           (fun o => ~ In target (map ref (elemsOpening o)) ->
                     substituteOpening target replacement o = o)).
  - intros p IH Hno. simpl. rewrite IH; [reflexivity|].
    now rewrite <- (elems_one (File p) p).
  - intros body Hall Hno. simpl.
    rewrite (list_substitute_absent _ _ _ Hall); [reflexivity|].
    now rewrite <- (elems_many (Program body) body).
  - intros id params body Hall IH Hno. simpl.
    unfold elems in Hno. simpl in Hno.
    rewrite map_app, nodes_flat_map, (parent_free body _ None) in Hno.
    rewrite map_app, in_app_iff in Hno.
    rewrite (list_substitute_absent _ _ _ Hall), IH; [reflexivity | |];
      intros Hin; apply Hno; auto.
  - intros body Hall Hno. simpl.
    rewrite (list_substitute_absent _ _ _ Hall); [reflexivity|].
    now rewrite <- (elems_many (BlockStatement body) body).
  - intros a IH Hno. simpl. rewrite IH; [reflexivity|].
    now rewrite <- (elems_one (ReturnStatement (Some a)) a).
  - reflexivity.
  - intros text inner Hall Hno. simpl.
    rewrite (list_substitute_absent _ _ _ Hall); [reflexivity|].
    now rewrite <- (elems_many (Opaque text inner) inner).
  - reflexivity.
  - intros e IH. exact IH.
  - intros o IH Hno. simpl. rewrite IH; [reflexivity|].
    unfold elems in Hno. simpl in Hno. exact Hno.
  - intros nm v IH Hno. simpl. rewrite IH; [reflexivity|].
    now rewrite <- (elems_one (JSXAttribute nm (Some v)) v).
  - reflexivity.
  - intros a IH Hno. simpl. rewrite IH; [reflexivity|].
    now rewrite <- (elems_one (JSXSpreadAttribute a) a).
  - intros cs Hall Hno. simpl.
    rewrite (list_substitute_absent _ _ _ Hall); [reflexivity|].
    now rewrite <- (elems_many (JSXFragment cs) cs).
  - reflexivity.
  - intros x IH Hno. simpl. rewrite IH; [reflexivity|].
    now rewrite <- (elems_one (JSXExpressionContainer x) x).
  - intros x IH Hno. simpl. rewrite IH; [reflexivity|].
    now rewrite <- (elems_one (JSXSpreadChild x) x).
  - intros r o cs IHo Hall Hno.
    rewrite elems_element in Hno. simpl in Hno.
    rewrite map_app, in_app_iff in Hno.
    cbn [substitute ref].
    destruct (Nat.eqb r target) eqn:E.
    + apply Nat.eqb_eq in E. exfalso. apply Hno. now left.
    + fold (substituteOpening target replacement o).
      rewrite IHo, (list_substitute_absent _ _ _ Hall); [reflexivity | |];
        intros Hin; apply Hno; auto.
  - intros nm attrs sc Hall Hno. simpl.
    rewrite (list_substitute_absent _ _ _ Hall); [reflexivity|].
    now rewrite <- elemsOpening_attributes with (nm := nm) (sc := sc).
Qed.

Section OneTraversal.

Variable occs : list JSXElement.
Variable replacement : JSXElement.

Lemma list_walked l :
  Forall (nodeWalked occs replacement) l -> listWalked occs replacement l.
Proof.
  induction 1 as [| x l Hx Hall IH]; unfold listWalked, walked.
  - simpl. split; reflexivity.
  - unfold nodeWalked, walked in Hx. cbn [mapUntil flat_map map].
    destruct (replaceInNode occs replacement x) as [x' [[old | e] |]];
      cbn [fst snd] in *.
    + destruct Hx as [Hhd [Hin [Hinc Hsub]]].
      split; [symmetry; apply hd_error_app_some; now symmetry|].
      split; [apply in_or_app; now left|]. split; [exact Hinc|].
      intros Hnd. rewrite map_app in Hnd.
      rewrite Hsub by exact (NoDup_app_remove_r _ _ Hnd).
      f_equal. symmetry. apply list_substitute_absent.
      * apply Forall_forall. intros n _. apply substitute_absent.
      * intros Hin'.
        apply (NoDup_app_disjoint _ _ _ (ref old) Hnd); [|exact Hin'].
        now apply in_map.
    + destruct Hx as [Hhd ->].
      split; [symmetry; apply hd_error_app_some; now symmetry | reflexivity].
    + destruct Hx as [Hhd ->].
      rewrite hd_error_app_nil by now symmetry.
      unfold listWalked, walked in IH.
      destruct (mapUntil (replaceInNode occs replacement) l) as [l' stop'].
      cbn [fst snd] in *. destruct IH as [Hhd' IH].
      split; [exact Hhd'|].
      destruct stop' as [[old | e] |]; [| now subst | now subst].
      destruct IH as [Hin [Hinc Hsub]].
      split; [apply in_or_app; now right|]. split; [exact Hinc|].
      intros Hnd. rewrite map_app in Hnd.
      rewrite Hsub by exact (NoDup_app_remove_l _ _ Hnd).
      f_equal. symmetry. apply substitute_absent.
      intros Hin'.
      apply (NoDup_app_disjoint _ _ _ (ref old) Hnd); [exact Hin'|].
      now apply in_map.
Qed.

(** A node with one child that the traversal visits. *)
Lemma one_child_walked (wrap : Node -> Node) child :
  elems (wrap child) = elems child ->
  haltsIn occs (wrap child) = haltsIn occs child ->
  (forall target,
     substitute target replacement (wrap child)
     = wrap (substitute target replacement child)) ->
  replaceInNode occs replacement (wrap child)
  = (wrap (fst (replaceInNode occs replacement child)),
     snd (replaceInNode occs replacement child)) ->
  nodeWalked occs replacement child ->
  nodeWalked occs replacement (wrap child).
Proof.
  unfold nodeWalked, walked. intros -> -> Hsub -> [Hhd H]. cbn [fst snd].
  split; [exact Hhd|].
  destruct (snd (replaceInNode occs replacement child)) as [[old | e] |].
  - destruct H as [Hin [Hinc Hs]]. repeat split; try assumption.
    intros Hnd. now rewrite Hsub, Hs.
  - now rewrite H.
  - now rewrite H.
Qed.

(** A node whose children, a list, the traversal visits in order. *)
Lemma children_walked (wrap : list Node -> Node) l :
  elems (wrap l) = flat_map elems l ->
  haltsIn occs (wrap l) = flat_map (haltsIn occs) l ->
  (forall target,
     substitute target replacement (wrap l)
     = wrap (map (substitute target replacement) l)) ->
  replaceInNode occs replacement (wrap l)
  = (wrap (fst (mapUntil (replaceInNode occs replacement) l)),
     snd (mapUntil (replaceInNode occs replacement) l)) ->
  Forall (nodeWalked occs replacement) l ->
  nodeWalked occs replacement (wrap l).
Proof.
  intros He Hh Hsub Hr Hall. apply list_walked in Hall.
  unfold listWalked, nodeWalked, walked in *. rewrite He, Hh, Hr.
  cbn [fst snd]. destruct Hall as [Hhd H].
  split; [exact Hhd|].
  destruct (snd (mapUntil (replaceInNode occs replacement) l))
    as [[old | e] |].
  - destruct H as [Hin [Hinc Hs]]. repeat split; try assumption.
    intros Hnd. now rewrite Hsub, Hs.
  - now rewrite H.
  - now rewrite H.
Qed.

Lemma every_node_walked : forall n, nodeWalked occs replacement n.
Proof.
  apply (Node_induction (nodeWalked occs replacement)
           (fun e => nodeWalked occs replacement (JSXElementNode e))
           (openingWalked occs replacement)).
  - intros p IH. apply (one_child_walked File); auto.
    + now apply elems_one.
    + simpl. now destruct (replaceInNode occs replacement p).
  - intros body Hall. apply (children_walked Program); auto.
    + now apply elems_many.
    + simpl. now destruct (mapUntil (replaceInNode occs replacement) body).
  - intros id params body _ _. unfold nodeWalked, walked. simpl.
    split; reflexivity.
  - intros body Hall. apply (children_walked BlockStatement); auto.
    + now apply elems_many.
    + simpl. now destruct (mapUntil (replaceInNode occs replacement) body).
  - intros a IH.
    apply (one_child_walked (fun a => ReturnStatement (Some a))); auto.
    + now apply elems_one.
    + simpl. now destruct (replaceInNode occs replacement a).
  - unfold nodeWalked, walked. simpl. split; reflexivity.
  - intros text inner Hall. apply (children_walked (Opaque text)); auto.
    + now apply elems_many.
    + simpl. now destruct (mapUntil (replaceInNode occs replacement) inner).
  - intros v. unfold nodeWalked, walked. simpl. split; reflexivity.
  - intros e IH. exact IH.
  - intros o IH. unfold nodeWalked, openingWalked, walked in *.
    cbn [replaceInNode haltsIn substitute].
    replace (elems (JSXOpeningElementNode o)) with (elemsOpening o)
      by reflexivity.
    destruct (replaceInOpening occs replacement o) as [o' stop].
    cbn [fst snd] in *. destruct IH as [Hhd H]. split; [exact Hhd|].
    destruct stop as [[old | e] |].
    + destruct H as [Hin [Hinc Hs]]. repeat split; try assumption.
      intros Hnd. now rewrite Hs.
    + now rewrite H.
    + now rewrite H.
  - intros nm v IH.
    apply (one_child_walked (fun v => JSXAttribute nm (Some v))); auto.
    + now apply elems_one.
    + simpl. now destruct (replaceInNode occs replacement v).
  - intros nm. unfold nodeWalked, walked. simpl. split; reflexivity.
  - intros a IH. apply (one_child_walked JSXSpreadAttribute); auto.
    + now apply elems_one.
    + simpl. now destruct (replaceInNode occs replacement a).
  - intros cs Hall. apply (children_walked JSXFragment); auto.
    + now apply elems_many.
    + simpl. now destruct (mapUntil (replaceInNode occs replacement) cs).
  - intros v. unfold nodeWalked, walked. simpl. split; reflexivity.
  - intros x IH. apply (one_child_walked JSXExpressionContainer); auto.
    + now apply elems_one.
    + simpl. now destruct (replaceInNode occs replacement x).
  - intros x IH. apply (one_child_walked JSXSpreadChild); auto.
    + now apply elems_one.
    + simpl. now destruct (replaceInNode occs replacement x).
  - intros r o cs IHo Hall. apply list_walked in Hall.
    unfold nodeWalked, openingWalked, listWalked, walked in *.
    rewrite elems_element. cbn [replaceInNode haltsIn substitute ref].
    destruct (includes occs (mkJSXElement r o cs)) eqn:Hinc.
    + cbn [fst snd hd_error]. split; [reflexivity|].
      split; [now left|]. split; [exact Hinc|].
      intros _. cbn [ref]. now rewrite Nat.eqb_refl.
    + fold (replaceInOpening occs replacement o).
      fold (haltsInOpening occs o).
      destruct (replaceInOpening occs replacement o) as [o' [[old | e] |]];
        cbn [fst snd] in *.
      * destruct IHo as [Hhd [Hin [Hinc' Hs]]].
        split; [symmetry; apply hd_error_app_some; now symmetry|].
        split; [right; apply in_or_app; now left|]. split; [exact Hinc'|].
        intros Hnd. cbn [map] in Hnd. rewrite map_app in Hnd.
        inversion Hnd as [| ? ? Hr Hnd']; subst.
        destruct (Nat.eqb r (ref old)) eqn:E.
        { apply Nat.eqb_eq in E. exfalso. apply Hr. rewrite E.
          apply in_or_app. left. now apply in_map. }
        fold (substituteOpening (ref old) replacement o).
        rewrite Hs by exact (NoDup_app_remove_r _ _ Hnd').
        do 2 f_equal. symmetry. apply list_substitute_absent.
        -- apply Forall_forall. intros n _. apply substitute_absent.
        -- intros Hin'.
           apply (NoDup_app_disjoint _ _ _ (ref old) Hnd'); [|exact Hin'].
           now apply in_map.
      * destruct IHo as [Hhd ->].
        split; [symmetry; apply hd_error_app_some; now symmetry
               | reflexivity].
      * destruct IHo as [Hhd ->].
        rewrite hd_error_app_nil by now symmetry.
        destruct (mapUntil (replaceInNode occs replacement) cs)
          as [cs' stop'].
        cbn [fst snd] in *. destruct Hall as [Hhd' H].
        split; [exact Hhd'|].
        destruct stop' as [[old | e] |]; [| now subst | now subst].
        destruct H as [Hin [Hinc' Hs]].
        split; [right; apply in_or_app; now right|]. split; [exact Hinc'|].
        intros Hnd. cbn [map] in Hnd. rewrite map_app in Hnd.
        inversion Hnd as [| ? ? Hr Hnd']; subst.
        destruct (Nat.eqb r (ref old)) eqn:E.
        { apply Nat.eqb_eq in E. exfalso. apply Hr. rewrite E.
          apply in_or_app. right. now apply in_map. }
        fold (substituteOpening (ref old) replacement o).
        rewrite Hs by exact (NoDup_app_remove_l _ _ Hnd').
        do 2 f_equal. symmetry.
        assert (Ho : substitute (ref old) replacement (JSXOpeningElementNode o)
                     = JSXOpeningElementNode o).
        { apply substitute_absent. intros Hin'.
          apply (NoDup_app_disjoint _ _ _ (ref old) Hnd'); [exact Hin'|].
          now apply in_map. }
        simpl in Ho. now inversion Ho as [Ho']; rewrite !Ho'.
  - intros nm attrs sc Hall. apply list_walked in Hall.
    unfold openingWalked, listWalked, walked in *.
    rewrite elemsOpening_attributes.
    cbn [replaceInOpening haltsInOpening substituteOpening].
    destruct (mapUntil (replaceInNode occs replacement) attrs) as [a' stop].
    cbn [fst snd] in *. destruct Hall as [Hhd H]. split; [exact Hhd|].
    destruct stop as [[old | e] |].
    + destruct H as [Hin [Hinc Hs]]. repeat split; try assumption.
      intros Hnd. now rewrite Hs.
    + now rewrite H.
    + now rewrite H.
Qed.

End OneTraversal.

(** The traversal of [replaceOccurrencesWithComponent] over the
    statements of the program. *)
Lemma replaceOccurrences_walked h candidate :
  listWalked (occurrences candidate)
    (reference (nextRef h) (suggestedName candidate)) (programBody h).
Proof.
  apply list_walked, Forall_forall. intros n _. apply every_node_walked.
Qed.

Lemma uniqueRefs_body body :
  uniqueRefs (Program body) <-> NoDup (map ref (flat_map elems body)).
Proof.
  unfold uniqueRefs, traverse.
  now rewrite <- (map_map node ref), nodes_flat_map.
Qed.

(** When the program starts with a function declaration the traversal
    throws at once, and the call changes nothing. *)
Lemma replaceOccurrences_after_declaration h candidate id params body rest :
  programBody h = FunctionDeclaration id params body :: rest ->
  replaceOccurrencesWithComponent h candidate = h.
Proof.
  intros Hbody. unfold replaceOccurrencesWithComponent. now rewrite Hbody.
Qed.

(** One round of the loop of [extractComponents]: the declaration goes
    in front, and that is all. *)
Lemma processCandidate_unshifts options h acc candidate :
  fst (processCandidate options (h, acc) candidate)
  = {| programBody :=
         fst (extractComponentDeclaration h candidate options)
         :: programBody h;
       detached := detached h;
       nextRef := snd (extractComponentDeclaration h candidate options) |}
  /\
  declName (fst (extractComponentDeclaration h candidate options))
  = Some (suggestedName candidate).
Proof.
  unfold processCandidate, extractComponentDeclaration.
  destruct (match example candidate with
            | Some example =>
                let (c, k) := cloneElement (currentElement h example) (nextRef h) in
                (Some (JSXElementNode c), k)
            | None => (None, nextRef h)
            end) as [clone next].
  cbn [fst snd]. split; [|reflexivity].
  erewrite replaceOccurrences_after_declaration; reflexivity.
Qed.

Lemma processing_unshifts options candidates :
  forall h acc,
  exists ds,
    programBody (fst (fold_left (processCandidate options) candidates (h, acc)))
    = ds ++ programBody h /\
    map declName ds = rev (map (fun c => Some (suggestedName c)) candidates).
Proof.
  induction candidates as [| c cs IH]; intros h acc; cbn [fold_left].
  - exists []. split; reflexivity.
  - destruct (processCandidate_unshifts options h acc c) as [Hstep Hname].
    destruct (processCandidate options (h, acc) c) as [h1 acc1].
    cbn [fst] in Hstep.
    destruct (IH h1 acc1) as [ds [Hbody Hnames]].
    exists (ds ++ [fst (extractComponentDeclaration h c options)]). split.
    + rewrite Hbody, Hstep. cbn [programBody]. now rewrite <- app_assoc.
    + rewrite map_app, Hnames. cbn [map rev]. now rewrite Hname.
Qed.

(** The names the program declares once every candidate is processed. *)
Lemma processCandidates_declNames options body candidates :
  map declName (programBody (fst (processCandidates options body candidates)))
  = rev (map (fun c => Some (suggestedName c)) candidates)
    ++ map declName body.
Proof.
  unfold processCandidates.
  destruct (processing_unshifts options candidates (initialHeap body) [])
    as [ds [-> Hnames]].
  now rewrite map_app, Hnames.
Qed.

(** The statements of the input follow the declarations, as they were. *)
Lemma processCandidates_body options body candidates :
  skipn (List.length candidates)
        (programBody (fst (processCandidates options body candidates)))
  = body.
Proof.
  unfold processCandidates.
  destruct (processing_unshifts options candidates (initialHeap body) [])
    as [ds [-> Hnames]].
  apply (f_equal (@List.length (option string))) in Hnames.
  rewrite length_rev, !length_map in Hnames. rewrite <- Hnames.
  rewrite skipn_app, skipn_all, Nat.sub_diag. reflexivity.
Qed.

(** The program [extractComponents] prints for [twoThenThree]. *)
Lemma twoThenThree_processed :
  programBody
    (fst (processCandidates noOptions twoThenThree
            (findComponentCandidates sampleGenerate
               (File (Program twoThenThree)) noOptions)))
  = twoThenThreeRewritten.
Proof. vm_compute. reflexivity. Qed.

(** C1 (count conservation) at [<div><p>a</p><p>b</p></div>].  The
    group of the two [p] is reported with count 2 and declared once, and
    the program that is printed holds no reference [<Extracted1 />]:
    both [p] are where they were.  [extractComponents] puts the
    declaration in front of the program before it calls
    [replaceOccurrencesWithComponent], whose traversal then throws at
    that declaration; the [catch] of the function swallows the exception
    and nothing is replaced.  So it is for every program and every list
    of candidates: the statements of the input follow the declarations
    unchanged. *)
Theorem C1_no_occurrence_replaced generate code :
  extractComponents (fun _ => Return twoParagraphs) generate code noOptions
  = Return {| code := generate (File (Program twoParagraphsRewritten));
              components :=
                [ {| Extracted.name := "Extracted1";
                     Extracted.count := 2;
                     Extracted.fingerprint := "p:0:1:" |} ];
              changed := true |}
  /\ countDeclarations "Extracted1" twoParagraphsRewritten = 1
  /\ countInvocations "Extracted1" twoParagraphsRewritten = 0
  /\ map (fun path => getTagName (node path))
         (traverse (Program twoParagraphsRewritten))
     = [Some "p"; Some "div"; Some "p"; Some "p"]
  /\ (forall options body candidates,
        skipn (List.length candidates)
              (programBody (fst (processCandidates options body candidates)))
        = body).
Proof.
  split; [|split; [|split; [|split]]]; try (vm_compute; reflexivity).
  apply processCandidates_body.
Qed.

(* ================================================================= *)
(** ** Fingerprints, further *)

Lemma decimal_inj n m : decimal n = decimal m -> n = m.
Proof.
  unfold decimal. intros H.
  apply (f_equal NilEmpty.uint_of_string) in H.
  rewrite !NilEmpty.usu in H. inversion H as [H'].
  now apply Unsigned.to_uint_inj.
Qed.

Lemma string_of_uint_noColon d : noColon (NilEmpty.string_of_uint d) = true.
Proof. induction d; simpl; auto. Qed.

Lemma decimal_noColon n : noColon (decimal n) = true.
Proof. apply string_of_uint_noColon. Qed.

(** Two texts that agree, each a colon-free head before a colon, agree
    on the head and on what follows the colon. *)
Lemma split_at_colon s1 s2 r1 r2 :
  noColon s1 = true -> noColon s2 = true ->
  (s1 ++ ":" ++ r1)%string = (s2 ++ ":" ++ r2)%string ->
  s1 = s2 /\ r1 = r2.
Proof.
  revert s2. induction s1 as [| c s1 IH]; intros [| c2 s2] H1 H2 Heq;
    simpl in *.
  - inversion Heq. now split.
  - inversion Heq; subst c2. simpl in H2. discriminate.
  - inversion Heq; subst c. simpl in H1. discriminate.
  - inversion Heq; subst c2.
    apply andb_true_iff in H1, H2. destruct H1 as [_ H1], H2 as [_ H2].
    destruct (IH s2 H1 H2 H3) as [-> ->]. now split.
Qed.

Lemma append_left_cancel (s r1 r2 : string) :
  (s ++ r1)%string = (s ++ r2)%string -> r1 = r2.
Proof.
  induction s as [| c s IH]; simpl; intros H; [assumption|].
  inversion H. now apply IH.
Qed.

(** X1.  For tag names without a colon (every identifier and every
    member expression), two elements have the same fingerprint exactly
    when they agree on the tag name, the number of attributes, the
    number of children and the class token. *)
Theorem X1_fingerprint_exact generate options a b :
  noColon (fingerprintTagName (openingElement a)) = true ->
  noColon (fingerprintTagName (openingElement b)) = true ->
  (computeTreeFingerprint generate a options
   = computeTreeFingerprint generate b options
   <->
   fingerprintTagName (openingElement a) = fingerprintTagName (openingElement b) /\
   List.length (attributes (openingElement a))
   = List.length (attributes (openingElement b)) /\
   List.length (children a) = List.length (children b) /\
   fingerprintClassNames generate (attributes (openingElement a))
   = fingerprintClassNames generate (attributes (openingElement b))).
Proof.
  intros Ha Hb. unfold computeTreeFingerprint. split.
  - intros Heq.
    apply split_at_colon in Heq; [|assumption|assumption].
    destruct Heq as [Htag Heq].
    apply split_at_colon in Heq; try apply decimal_noColon.
    destruct Heq as [Hattrs Heq].
    apply split_at_colon in Heq; try apply decimal_noColon.
    destruct Heq as [Hchildren Hclass].
    apply decimal_inj in Hattrs, Hchildren. now repeat split.
  - intros [-> [-> [-> ->]]]. reflexivity.
Qed.

(* ================================================================= *)
(** ** The returned groups, further *)

Lemma insertByCount_perm a l : Permutation (insertByCount a l) (a :: l).
Proof.
  induction l as [| b l IH]; simpl; [reflexivity|].
  destruct (count a <? count b)%nat; [|reflexivity].
  rewrite IH. apply perm_swap.
Qed.

Lemma sortByCount_perm l : Permutation (sortByCount l) l.
Proof.
  induction l as [| a l IH]; simpl; [reflexivity|].
  rewrite insertByCount_perm. now constructor.
Qed.

Lemma nameAt_inj opts i j : nameAt opts i = nameAt opts j -> i = j.
Proof.
  unfold nameAt. intros H. apply append_left_cancel in H.
  now apply decimal_inj.
Qed.

Lemma NoDup_map_injective (A B : Type) (f : A -> B) l :
  (forall x y, f x = f y -> x = y) -> NoDup l -> NoDup (map f l).
Proof.
  intros Hinj. induction 1 as [| x l Hnotin _ IH]; simpl; constructor.
  - intros Hin. apply in_map_iff in Hin. destruct Hin as [y [Hy Hin]].
    apply Hinj in Hy. now subst.
  - exact IH.
Qed.

Lemma NoDup_filter_keys (m : CandidateMap) f :
  NoDup (map fst m) -> NoDup (map fst (filter f m)).
Proof.
  induction m as [| [k v] m IH]; simpl; intros Hnd; [constructor|].
  inversion Hnd as [| ? ? Hnotin Hnd']; subst.
  destruct (f (k, v)); simpl; [|now apply IH].
  constructor; [|now apply IH].
  intros Hin. apply Hnotin. apply in_map_iff in Hin.
  destruct Hin as [[k' v'] [Hk Hin]]. simpl in Hk. subst k'.
  apply filter_In in Hin. apply in_map_iff. exists (k, v'). now split.
Qed.

(** No two returned groups share a name or a fingerprint. *)
Lemma results_distinct generate ast options :
  NoDup (map suggestedName (findComponentCandidates generate ast options)) /\
  NoDup (map fingerprint (findComponentCandidates generate ast options)).
Proof.
  unfold findComponentCandidates.
  set (opts := mergeOptions options). set (program := programOf ast).
  set (unsorted := finalizeGroups opts program
                     (collectCandidates generate opts program)).
  split.
  - apply (Permutation_NoDup
             (Permutation_map suggestedName
                (Permutation_sym (sortByCount_perm unsorted)))).
    unfold unsorted. rewrite finalizeGroups_names.
    apply NoDup_map_injective; [apply nameAt_inj | apply seq_NoDup].
  - apply (Permutation_NoDup
             (Permutation_map fingerprint
                (Permutation_sym (sortByCount_perm unsorted)))).
    assert (Hfp : map fingerprint unsorted = map fst (map entryOf unsorted)).
    { rewrite map_map. reflexivity. }
    rewrite Hfp. unfold unsorted. rewrite finalizeGroups_entries.
    apply NoDup_filter_keys.
    now destruct (collectCandidates_collected generate opts program).
Qed.

(** The fields of a returned group. *)
Lemma result_fields generate ast options c :
  In c (findComponentCandidates generate ast options) ->
  occurrences c
  = groupOf generate (mergeOptions options) (traverse (programOf ast))
      (fingerprint c) /\
  example c = hd_error (occurrences c) /\
  count c = List.length (occurrences c) /\
  1 <= count c /\
  minRepeats (mergeOptions options) <= count c /\
  (forall occ, In occ (occurrences c) ->
     computeTreeFingerprint generate occ
       (fingerprintOptions (mergeOptions options)) = fingerprint c).
Proof.
  intros Hc.
  destruct (result_entry generate ast options c Hc)
    as [Hentry [Hlen [_ [Hocc Hcount]]]].
  assert (Hc' := Hc). unfold findComponentCandidates in Hc'.
  apply -> sortByCount_In in Hc'.
  destruct (finalizeGroups_fields _ _ _ _ Hc') as [Hex _].
  destruct (collectCandidates_collected generate (mergeOptions options)
              (programOf ast)) as [_ Hgr _ _].
  destruct (Hgr _ _ Hentry) as [_ Hne].
  repeat split; try assumption; try lia.
  - rewrite Hcount. destruct (occurrences c); [contradiction | simpl; lia].
  - intros occ Hin.
    destruct (result_occurrence generate ast options c occ Hc Hin)
      as [path [_ [<- [_ Hk]]]].
    exact Hk.
Qed.

Lemma NoDup_map_filter (A B : Type) (f : A -> B) (p : A -> bool) l :
  NoDup (map f l) -> NoDup (map f (filter p l)).
Proof.
  induction l as [| x l IH]; simpl; intros Hnd; [constructor|].
  inversion Hnd as [| ? ? Hnotin Hnd']; subst.
  destruct (p x); simpl; [|now apply IH].
  constructor; [|now apply IH].
  intros Hin. apply Hnotin. apply in_map_iff in Hin.
  destruct Hin as [y [Hy Hin]]. apply filter_In in Hin.
  apply in_map_iff. exists y. now split.
Qed.

Lemma NoDup_map_same (A B : Type) (f : A -> B) l x y :
  NoDup (map f l) -> In x l -> In y l -> f x = f y -> x = y.
Proof.
  induction l as [| a l IH]; simpl; intros Hnd Hx Hy Heq; [contradiction|].
  inversion Hnd as [| ? ? Hnotin Hnd']; subst.
  destruct Hx as [-> | Hx], Hy as [-> | Hy].
  - reflexivity.
  - exfalso. apply Hnotin. rewrite Heq. now apply in_map.
  - exfalso. apply Hnotin. rewrite <- Heq. now apply in_map.
  - now apply IH.
Qed.

(** X2.  A fingerprint is returned exactly when the elements the
    visitor keeps under it are at least one and at least [minRepeats],
    and none of them has a custom component as its parent. *)
Theorem X2_returned_fingerprints generate ast options k :
  uniqueRefs (programOf ast) ->
  ((exists c, In c (findComponentCandidates generate ast options) /\
              fingerprint c = k)
   <->
   (groupOf generate (mergeOptions options) (traverse (programOf ast)) k <> [] /\
    minRepeats (mergeOptions options)
    <= List.length
         (groupOf generate (mergeOptions options) (traverse (programOf ast)) k) /\
    forall path parent,
      In path (traverse (programOf ast)) ->
      eligible (mergeOptions options) path = true ->
      fingerprintOf generate (mergeOptions options) path = k ->
      parentElement (parentPath path) = Some parent ->
      isCustomComponent parent = false)).
Proof.
  intros Hu.
  set (opts := mergeOptions options). set (program := programOf ast).
  destruct (collectCandidates_collected generate opts program)
    as [Hnd Hgr Hkeys _].
  split.
  - intros [c [Hc <-]].
    destruct (result_fields generate ast options c Hc)
      as [Hocc [_ [Hcount [Hone [Hmin _]]]]].
    fold opts program in Hocc, Hmin. rewrite <- Hocc.
    split; [|split].
    + intros Hnil. rewrite Hnil in Hcount. simpl in Hcount. lia.
    + lia.
    + intros path parent Hin He Hk Hp.
      assert (Hinc : includes (occurrences c) (node path) = true).
      { apply includes_true. exists (node path). split; [|reflexivity].
        rewrite Hocc. apply groupOf_In. now exists path. }
      destruct (result_path generate ast options c path Hu Hc Hin Hinc)
        as [_ [_ Hcustom]].
      fold program in Hcustom. now rewrite Hp in Hcustom.
  - intros [Hne [Hmin Hparents]].
    set (g := groupOf generate opts (traverse program) k) in *.
    assert (HinD : In k (map (fingerprintOf generate opts)
                            (filter (eligible opts) (traverse program)))).
    { destruct (in_dec string_dec k
                  (map (fingerprintOf generate opts)
                       (filter (eligible opts) (traverse program))))
        as [H | H]; [assumption|].
      exfalso. apply Hne. now apply groupOf_nil_iff. }
    apply Hkeys in HinD. apply in_map_iff in HinD.
    destruct HinD as [[k' occs] [Hk' Hentry]]. simpl in Hk'. subst k'.
    destruct (Hgr _ _ Hentry) as [Hoccs _]. fold g in Hoccs. subst occs.
    assert (Hq : qualifies opts program (k, g) = true).
    { unfold qualifies. simpl. apply andb_true_iff. split.
      - apply negb_true_iff. now apply Nat.ltb_ge.
      - apply negb_true_iff. unfold shouldSkipGroup.
        destruct (existsb _ g) eqn:Ex; [|reflexivity].
        exfalso. apply existsb_exists in Ex. destruct Ex as [occ [Hocc Hp]].
        apply groupOf_In in Hocc.
        destruct Hocc as [path [Hin [<- [He Hk]]]].
        rewrite (findParentPath_parent program path Hu Hin) in Hp.
        destruct (parentElement (parentPath path)) as [parent|] eqn:Epar;
          [|discriminate].
        rewrite (Hparents path parent Hin He Hk Epar) in Hp. discriminate. }
    assert (Hf : In (k, g) (filter (qualifies opts program)
                              (collectCandidates generate opts program)))
      by (apply filter_In; now split).
    rewrite <- finalizeGroups_entries in Hf. apply in_map_iff in Hf.
    destruct Hf as [c [Hc Hin]]. exists c. split.
    + unfold findComponentCandidates. fold opts program.
      now apply sortByCount_In.
    + unfold entryOf in Hc. now inversion Hc.
Qed.

(** X5.  An element object is an occurrence of one returned group at
    most, and once in it. *)
Theorem X5_groups_disjoint generate ast options :
  uniqueRefs (programOf ast) ->
  (forall c, In c (findComponentCandidates generate ast options) ->
             NoDup (map ref (occurrences c)))
  /\
  (forall c1 c2 occ1 occ2,
     In c1 (findComponentCandidates generate ast options) ->
     In c2 (findComponentCandidates generate ast options) ->
     In occ1 (occurrences c1) -> In occ2 (occurrences c2) ->
     ref occ1 = ref occ2 -> c1 = c2).
Proof.
  intros Hu. split.
  - intros c Hc.
    destruct (result_fields generate ast options c Hc) as [-> _].
    unfold groupOf. rewrite map_map.
    apply NoDup_map_filter. exact Hu.
  - intros c1 c2 occ1 occ2 Hc1 Hc2 Ho1 Ho2 Href.
    destruct (result_occurrence generate ast options c1 occ1 Hc1 Ho1)
      as [p1 [Hp1 [Hn1 [_ Hk1]]]].
    destruct (result_occurrence generate ast options c2 occ2 Hc2 Ho2)
      as [p2 [Hp2 [Hn2 [_ Hk2]]]].
    assert (p1 = p2).
    { eapply uniqueRefs_same_path; eauto. now rewrite Hn1, Hn2. }
    subst p2.
    destruct (results_distinct generate ast options)
      as [_ Hfp].
    eapply NoDup_map_same; eauto. congruence.
Qed.

Lemma collectCandidates_skipTags generate o1 o2 program :
  skipTags o1 = skipTags o2 ->
  collectCandidates generate o1 program = collectCandidates generate o2 program.
Proof.
  intros Hs. unfold collectCandidates.
  generalize (@nil (string * list JSXElement)).
  induction (traverse program) as [| p l IH]; intros m; simpl;
    [reflexivity|].
  rewrite IH. f_equal. unfold visitJSXElement. rewrite Hs.
  destruct (fingerprintOptions o1), (fingerprintOptions o2). reflexivity.
Qed.

(** X6.  With the same [skipTags], every group returned under the
    larger [minRepeats] is returned under the smaller one, with the same
    occurrences. *)
Theorem X6_minRepeats_monotone generate ast o1 o2 :
  skipTags (mergeOptions o1) = skipTags (mergeOptions o2) ->
  minRepeats (mergeOptions o1) <= minRepeats (mergeOptions o2) ->
  forall c2, In c2 (findComponentCandidates generate ast o2) ->
  exists c1, In c1 (findComponentCandidates generate ast o1) /\
             fingerprint c1 = fingerprint c2 /\
             occurrences c1 = occurrences c2 /\
             count c1 = count c2.
Proof.
  intros Hs Hm c2 Hc2.
  assert (Hc2' := Hc2). unfold findComponentCandidates in Hc2'.
  apply -> sortByCount_In in Hc2'.
  destruct (finalizeGroups_fields _ _ _ _ Hc2') as [_ Hcount2].
  apply finalizeGroups_In in Hc2'. destruct Hc2' as [Hentry Hq].
  rewrite <- (collectCandidates_skipTags generate _ _ _ Hs) in Hentry.
  assert (Hq1 : qualifies (mergeOptions o1) (programOf ast) (entryOf c2) = true).
  { unfold qualifies in *. apply andb_true_iff in Hq. destruct Hq as [Hl Hk].
    apply andb_true_iff. split; [|assumption].
    apply negb_true_iff in Hl. apply Nat.ltb_ge in Hl.
    apply negb_true_iff. apply Nat.ltb_ge. lia. }
  assert (Hf : In (entryOf c2)
                  (filter (qualifies (mergeOptions o1) (programOf ast))
                     (collectCandidates generate (mergeOptions o1) (programOf ast))))
    by (apply filter_In; now split).
  rewrite <- finalizeGroups_entries in Hf. apply in_map_iff in Hf.
  destruct Hf as [c1 [Hc1 Hin1]].
  destruct (finalizeGroups_fields _ _ _ _ Hin1) as [_ Hcount1].
  exists c1. unfold entryOf in Hc1. inversion Hc1 as [[Hfp Hocc]].
  repeat split; try assumption.
  - unfold findComponentCandidates. now apply sortByCount_In.
  - now rewrite Hcount1, Hcount2, Hocc.
Qed.

(* ================================================================= *)
(** ** The element that is replaced *)

(** X7.  [replaceOccurrencesWithComponent] on a program of distinct
    element objects.  What decides is the first point, in traversal
    order, that is an occurrence of the candidate or a function
    declaration.  When it is an occurrence, a new reference
    [<suggestedName />] takes its place in the program, every other node
    staying as it was, and the occurrence is the one object detached.
    When it is a function declaration, or there is none, the call
    leaves the program as it was. *)
Theorem X7_replace_first_occurrence h candidate :
  uniqueRefs (Program (programBody h)) ->
  match flat_map (haltsIn (occurrences candidate)) (programBody h) with
  | Replaced old :: _ =>
      In old (map node (traverse (Program (programBody h)))) /\
      includes (occurrences candidate) old = true /\
      replaceOccurrencesWithComponent h candidate
      = {| programBody :=
             map (substitute (ref old)
                    (reference (nextRef h) (suggestedName candidate)))
                 (programBody h);
           detached := old :: detached h;
           nextRef := S (nextRef h) |}
  | _ => replaceOccurrencesWithComponent h candidate = h
  end.
Proof.
  intros Hu. apply uniqueRefs_body in Hu.
  pose proof (replaceOccurrences_walked h candidate) as [Hhd H].
  unfold replaceOccurrencesWithComponent.
  change (mkJSXElement (nextRef h)
            (mkJSXOpeningElement (JSXIdentifier (suggestedName candidate))
               [] true) [])
    with (reference (nextRef h) (suggestedName candidate)).
  unfold traverse. rewrite nodes_flat_map.
  destruct (mapUntil
              (replaceInNode (occurrences candidate)
                 (reference (nextRef h) (suggestedName candidate)))
              (programBody h)) as [body' stop].
  cbn [fst snd] in *.
  destruct (flat_map (haltsIn (occurrences candidate)) (programBody h))
    as [| [old | e] rest]; cbn [hd_error] in Hhd; subst stop;
    [reflexivity | | reflexivity].
  destruct H as [Hin [Hinc Hsub]].
  split; [exact Hin|]. split; [exact Hinc|]. now rewrite (Hsub Hu).
Qed.

(* ================================================================= *)
(** ** Declarations *)

Lemma countDeclarations_declName u l :
  countDeclarations u l = List.length (filter (declares u) (map declName l)).
Proof.
  unfold countDeclarations. induction l as [| n l IH]; simpl; [reflexivity|].
  destruct n; simpl; try exact IH.
  destruct (String.eqb id u); simpl; now rewrite IH.
Qed.

Lemma count_in_names u (cs : list ComponentCandidate) :
  NoDup (map suggestedName cs) ->
  (exists c, In c cs /\ suggestedName c = u) ->
  List.length
    (filter (declares u) (rev (map (fun c => Some (suggestedName c)) cs))) = 1.
Proof.
  intros Hnd Hex.
  assert (Hrev : forall (l : list (option string)),
            List.length (filter (declares u) (rev l))
            = List.length (filter (declares u) l)).
  { induction l as [| x l IH]; simpl; [reflexivity|].
    rewrite filter_app, length_app, IH. simpl.
    destruct (declares u x); simpl; lia. }
  rewrite Hrev. clear Hrev.
  induction cs as [| a cs IH]; simpl in *.
  - destruct Hex as [c [[] _]].
  - inversion Hnd as [| ? ? Hnotin Hnd']; subst.
    destruct (String.eqb (suggestedName a) u) eqn:E; simpl.
    + apply String.eqb_eq in E. f_equal.
      assert (Hnone : forall l,
                ~ In u (map suggestedName l) ->
                List.length (filter (declares u)
                          (map (fun c => Some (suggestedName c)) l)) = 0).
      { induction l as [| b l IHl]; simpl; intros Hn; [reflexivity|].
        destruct (String.eqb (suggestedName b) u) eqn:Eb.
        - apply String.eqb_eq in Eb. exfalso. apply Hn. now left.
        - apply IHl. intros H. apply Hn. now right. }
      apply Hnone. now rewrite <- E.
    + apply IH; [assumption|].
      destruct Hex as [c [[-> | Hin] Hc]].
      * apply String.eqb_neq in E. contradiction.
      * now exists c.
Qed.

(** X11.  The loop adds one declaration for each returned group: the
    program declares the name of a group once more than it did. *)
Theorem X11_one_declaration_each generate options body c :
  In c (findComponentCandidates generate (File (Program body)) options) ->
  countDeclarations (suggestedName c)
    (programBody
       (fst (processCandidates options body
               (findComponentCandidates generate (File (Program body)) options))))
  = S (countDeclarations (suggestedName c) body).
Proof.
  intros Hc.
  rewrite !countDeclarations_declName, processCandidates_declNames.
  rewrite filter_app, length_app.
  rewrite count_in_names; [reflexivity | | now exists c].
  apply results_distinct.
Qed.

(** X13.  Once the text has parsed, [extractComponents] throws the
    exception of the traversal of [findComponentCandidates] when there
    is one, and otherwise returns.  The result reports the returned
    groups in their order; [changed] tells whether any is reported; an
    unchanged result carries the input text, and a changed one the text
    printed for the input program with one declaration per reported
    group in front of it, the last reported first; the reported names
    are distinct, each with a count of one at least and of [minRepeats]
    at least. *)
Theorem X13_extractComponents_report parse generate text options body :
  parse text = Return body ->
  match traversalError (Program body) with
  | Some e => extractComponents parse generate text options = Throw e
  | None =>
      exists result,
        extractComponents parse generate text options = Return result /\
        components result
        = map reportOf
              (findComponentCandidates generate (File (Program body)) options) /\
        (changed result = true <-> components result <> []) /\
        (changed result = false -> code result = text) /\
        (changed result = true ->
         exists declarations,
           map declName declarations
           = rev (map (fun entry => Some (Extracted.name entry))
                      (components result)) /\
           code result = generate (File (Program (declarations ++ body)))) /\
        NoDup (map Extracted.name (components result)) /\
        (forall entry, In entry (components result) ->
           1 <= Extracted.count entry /\
           minRepeats (mergeOptions options) <= Extracted.count entry)
  end.
Proof.
  intros Hparse.
  rewrite (extractComponents_parsed parse generate text options body Hparse).
  destruct (traversalError (Program body)); [reflexivity|].
  pose proof (results_distinct generate
                (File (Program body)) options) as [Hnames _].
  pose proof (result_fields generate (File (Program body)) options)
    as Hfields.
  destruct (findComponentCandidates generate (File (Program body)) options)
    as [| c l] eqn:E.
  - eexists. split; [reflexivity|]. simpl.
    split; [reflexivity|].
    split; [split; [discriminate | intros H; now contradiction H]|].
    split; [reflexivity|].
    split; [discriminate|].
    split; [constructor|].
    intros entry [].
  - eexists. split; [reflexivity|]. cbn [components changed code].
    rewrite processCandidates_report.
    split; [reflexivity|]. split; [|split; [|split; [|split]]].
    + split; [discriminate | reflexivity].
    + discriminate.
    + intros _. unfold processCandidates.
      destruct (processing_unshifts options (c :: l) (initialHeap body) [])
        as [ds [Hbody Hds]].
      exists ds. rewrite Hbody. split; [|reflexivity].
      now rewrite Hds, map_map.
    + rewrite map_map. exact Hnames.
    + intros entry Hin.
      apply in_map_iff in Hin. destruct Hin as [c' [<- Hin]].
      destruct (Hfields c' Hin) as [_ [_ [_ [Hone [Hmin _]]]]].
      simpl. split; assumption.
Qed.

(* ================================================================= *)
(** ** Copies *)

Lemma list_copies l :
  Forall copies l ->
  forall next,
    snd (mapAlloc cloneNode l next)
    = next + List.length (flat_map elems l) /\
    map ref (flat_map elems (fst (mapAlloc cloneNode l next)))
    = seq next (List.length (flat_map elems l)) /\
    map stripNode (fst (mapAlloc cloneNode l next)) = map stripNode l.
Proof.
  induction 1 as [| x l Hx _ IH]; intros next; simpl.
  - rewrite Nat.add_0_r. repeat split.
  - destruct (Hx next) as [Hn [Hr Hs]].
    destruct (cloneNode x next) as [x' next1]. simpl in *.
    destruct (IH next1) as [Hn' [Hr' Hs']].
    destruct (mapAlloc cloneNode l next1) as [l' next2]. simpl in *.
    rewrite length_app. rewrite map_app. rewrite seq_app.
    rewrite Hr, Hr', Hs, Hs', Hn', Hn.
    repeat split. lia.
Qed.

Lemma every_node_copies : forall n, copies n.
Proof.
  apply (Node_induction copies (fun e => copies (JSXElementNode e))
           openingCopies);
    unfold copies, openingCopies.
  - intros p0 H next. destruct (H next) as [Hn [Hr Hs]].
    simpl. destruct (cloneNode p0 next) as [p' k]. simpl in *.
    to_elems. fold (elems p0) (elems p'). now rewrite Hs.
  - intros body Hall next.
    destruct (list_copies body Hall next) as [Hn [Hr Hs]].
    simpl. destruct (mapAlloc cloneNode body next) as [b' k]. simpl in *.
    to_elems. now rewrite Hs.
  - intros id params body Hall H next.
    destruct (list_copies params Hall next) as [Hn [Hr Hs]].
    simpl. destruct (mapAlloc cloneNode params next) as [params' k1].
    simpl in *. destruct (H k1) as [Hn' [Hr' Hs']].
    destruct (cloneNode body k1) as [body' k2]. simpl in *.
    to_elems. fold (elems body) (elems body').
    rewrite !length_app, seq_app, Hr, Hr', Hs, Hs', Hn', Hn.
    repeat split. lia.
  - intros body Hall next.
    destruct (list_copies body Hall next) as [Hn [Hr Hs]].
    simpl. destruct (mapAlloc cloneNode body next) as [b' k]. simpl in *.
    to_elems. now rewrite Hs.
  - intros a H next. destruct (H next) as [Hn [Hr Hs]].
    simpl. destruct (cloneNode a next) as [a' k]. simpl in *.
    to_elems. fold (elems a) (elems a'). now rewrite Hs.
  - intros next. simpl. rewrite Nat.add_0_r. repeat split.
  - intros text inner Hall next.
    destruct (list_copies inner Hall next) as [Hn [Hr Hs]].
    simpl. destruct (mapAlloc cloneNode inner next) as [b' k]. simpl in *.
    to_elems. now rewrite Hs.
  - intros v next. simpl. rewrite Nat.add_0_r. repeat split.
  - intros e H. exact H.
  - intros o H next. destruct (H next) as [Hn [Hr Hs]].
    simpl. destruct (cloneOpening o next) as [o' k]. simpl in *.
    to_elems. fold (elemsOpening o) (elemsOpening o'). now rewrite Hs.
  - intros nm v H next. destruct (H next) as [Hn [Hr Hs]].
    simpl. destruct (cloneNode v next) as [v' k]. simpl in *.
    to_elems. fold (elems v) (elems v'). now rewrite Hs.
  - intros nm next. simpl. rewrite Nat.add_0_r. repeat split.
  - intros a H next. destruct (H next) as [Hn [Hr Hs]].
    simpl. destruct (cloneNode a next) as [a' k]. simpl in *.
    to_elems. fold (elems a) (elems a'). now rewrite Hs.
  - intros cs Hall next.
    destruct (list_copies cs Hall next) as [Hn [Hr Hs]].
    simpl. destruct (mapAlloc cloneNode cs next) as [b' k]. simpl in *.
    to_elems. now rewrite Hs.
  - intros v next. simpl. rewrite Nat.add_0_r. repeat split.
  - intros x H next. destruct (H next) as [Hn [Hr Hs]].
    simpl. destruct (cloneNode x next) as [x' k]. simpl in *.
    to_elems. fold (elems x) (elems x'). now rewrite Hs.
  - intros x H next. destruct (H next) as [Hn [Hr Hs]].
    simpl. destruct (cloneNode x next) as [x' k]. simpl in *.
    to_elems. fold (elems x) (elems x'). now rewrite Hs.
  - intros r o cs Ho Hall next.
    cbn [cloneNode cloneElement].
    fold (cloneOpening o (S next)).
    destruct (Ho (S next)) as [Hn [Hr Hs]].
    destruct (cloneOpening o (S next)) as [o' k1]. cbn [fst snd] in *.
    destruct (list_copies cs Hall k1) as [Hn' [Hr' Hs']].
    destruct (mapAlloc cloneNode cs k1) as [cs' k2]. cbn [fst snd] in *.
    unfold elems. rewrite !nodes_element.
    cbn [map List.length ref stripNode stripElement].
    fold (stripOpening o) (stripOpening o').
    rewrite !length_app, map_app, Hr, Hr', Hn', Hn.
    change (S (List.length (elemsOpening o) + List.length (flat_map elems cs)))
      with (1 + (List.length (elemsOpening o) + List.length (flat_map elems cs))).
    rewrite (seq_app 1), (seq_app (List.length (elemsOpening o))).
    simpl. rewrite Hs.
    repeat split; try lia.
    + replace (next + 1) with (S next) by lia. reflexivity.
    + now rewrite Hs'.
  - intros nm attrs sc Hall next.
    destruct (list_copies attrs Hall next) as [Hn [Hr Hs]].
    simpl. destruct (mapAlloc cloneNode attrs next) as [b' k]. simpl in *.
    to_elems. now rewrite Hs.
Qed.

(* ================================================================= *)
(** ** What a replacement leaves alone *)

Lemma no_occurrence_unchanged occs replacement n :
  (forall e, In e (elems n) -> includes occs e = false) ->
  fst (replaceInNode occs replacement n) = n.
Proof.
  intros Hnone.
  destruct (every_node_walked occs replacement n) as [_ H].
  destruct (snd (replaceInNode occs replacement n)) as [[old | e] |];
    try exact H.
  destruct H as [Hin [Hinc _]]. rewrite (Hnone old Hin) in Hinc.
  discriminate.
Qed.

Lemma mapUntil_keeps (A B : Type) (f : A -> A * option B) l i x :
  nth_error l i = Some x -> fst (f x) = x ->
  nth_error (fst (mapUntil f l)) i = Some x.
Proof.
  revert i. induction l as [| y l IH]; intros [| i] Hnth Hx; simpl in *;
    try discriminate.
  - inversion Hnth; subst y.
    destruct (f x) as [x' [stop|]]; simpl in *; subst.
    + reflexivity.
    + now destruct (mapUntil f l).
  - destruct (f y) as [y' [stop|]]; simpl.
    + exact Hnth.
    + specialize (IH i Hnth Hx). now destruct (mapUntil f l).
Qed.

(** X8.  A statement of the program that holds no occurrence of the
    candidate is left as it is, at its place. *)
Theorem X8_statements_without_occurrence_kept h candidate i statement :
  nth_error (programBody h) i = Some statement ->
  (forall e, In e (elems statement) ->
             includes (occurrences candidate) e = false) ->
  nth_error (programBody (replaceOccurrencesWithComponent h candidate)) i
  = Some statement.
Proof.
  intros Hnth Hnone.
  unfold replaceOccurrencesWithComponent.
  pose proof (mapUntil_keeps _ _
                (replaceInNode (occurrences candidate)
                   (mkJSXElement (nextRef h)
                      (mkJSXOpeningElement
                         (JSXIdentifier (suggestedName candidate)) [] true) []))
                (programBody h) i statement Hnth
                (no_occurrence_unchanged _ _ _ Hnone)) as Hkeep.
  destruct (mapUntil _ (programBody h)) as [body' [[old | e] |]]; simpl in *;
    assumption.
Qed.

(** The declaration [extractComponentDeclaration] builds. *)
Lemma extractComponentDeclaration_copy h candidate options ex :
  example candidate = Some ex ->
  exists clone,
    extractComponentDeclaration h candidate options
    = (FunctionDeclaration (suggestedName candidate) []
         (BlockStatement [ReturnStatement (Some (JSXElementNode clone))]),
       nextRef h
       + List.length (elems (JSXElementNode (currentElement h ex)))) /\
    stripElement clone = stripElement (currentElement h ex) /\
    map ref (elems (JSXElementNode clone))
    = seq (nextRef h)
          (List.length (elems (JSXElementNode (currentElement h ex)))).
Proof.
  intros Hex. unfold extractComponentDeclaration. rewrite Hex.
  destruct (every_node_copies (JSXElementNode (currentElement h ex)) (nextRef h))
    as [Hn [Hr Hs]].
  simpl in Hn, Hr, Hs.
  destruct (cloneElement (currentElement h ex) (nextRef h)) as [clone k].
  simpl in *. exists clone. split; [now rewrite Hn|]. split.
  - now inversion Hs.
  - exact Hr.
Qed.

(* ================================================================= *)
(** ** Declarations are never rewritten *)

(** X12.  Processing further candidates leaves the declarations made
    for the earlier ones as they are: with [cs2] processed after [cs1],
    the declarations of [cs1] stand behind those of [cs2], unchanged. *)
Theorem X12_declarations_never_rewritten generate options body cs1 cs2 :
  findComponentCandidates generate (File (Program body)) options = cs1 ++ cs2 ->
  firstn (List.length cs1)
    (skipn (List.length cs2)
       (programBody (fst (processCandidates options body (cs1 ++ cs2)))))
  = firstn (List.length cs1)
      (programBody (fst (processCandidates options body cs1))).
Proof.
  intros _. unfold processCandidates. rewrite fold_left_app.
  destruct (fold_left (processCandidate options) cs1 (initialHeap body, []))
    as [h1 acc1].
  destruct (processing_unshifts options cs2 h1 acc1) as [ds [-> Hnames]].
  apply (f_equal (@List.length (option string))) in Hnames.
  rewrite length_rev, !length_map in Hnames. rewrite <- Hnames.
  rewrite skipn_app, skipn_all, Nat.sub_diag. reflexivity.
Qed.

(* ================================================================= *)
(** ** The further properties, stated and instanced *)

(** X3.  A returned group holds, in traversal order, the elements the
    visitor kept under its fingerprint: its example is the first of
    them, its count their number, which is one at least and
    [minRepeats] at least, and each of them has the fingerprint of the
    group. *)
Theorem X3_returned_group_fields generate ast options c :
  In c (findComponentCandidates generate ast options) ->
  occurrences c
  = groupOf generate (mergeOptions options) (traverse (programOf ast))
      (fingerprint c) /\
  example c = hd_error (occurrences c) /\
  count c = List.length (occurrences c) /\
  1 <= count c /\
  minRepeats (mergeOptions options) <= count c /\
  (forall occ, In occ (occurrences c) ->
     computeTreeFingerprint generate occ
       (fingerprintOptions (mergeOptions options)) = fingerprint c).
Proof. exact (result_fields generate ast options c). Qed.

(** X4.  No two returned groups have the same name, and no two the
    same fingerprint. *)
Theorem X4_names_and_fingerprints_distinct generate ast options :
  NoDup (map suggestedName (findComponentCandidates generate ast options)) /\
  NoDup (map fingerprint (findComponentCandidates generate ast options)).
Proof. exact (results_distinct generate ast options). Qed.

(** X9.  The declaration built for a candidate is
    [function suggestedName() { return <copy>; }], the copy being the
    example as it stands in the tree, with new element objects numbered
    from the next free identity on. *)
Theorem X9_declaration_is_new_copy h candidate options ex :
  example candidate = Some ex ->
  exists clone,
    extractComponentDeclaration h candidate options
    = (FunctionDeclaration (suggestedName candidate) []
         (BlockStatement [ReturnStatement (Some (JSXElementNode clone))]),
       nextRef h
       + List.length (elems (JSXElementNode (currentElement h ex)))) /\
    stripElement clone = stripElement (currentElement h ex) /\
    map ref (elems (JSXElementNode clone))
    = seq (nextRef h)
          (List.length (elems (JSXElementNode (currentElement h ex)))).
Proof. exact (extractComponentDeclaration_copy h candidate options ex). Qed.

(** X10.  After the loop the program starts with the declarations of
    the candidates, the last one processed first, followed by as many
    statements as the input had, declaring what they declared. *)
Theorem X10_declarations_prepended options body candidates :
  map declName (programBody (fst (processCandidates options body candidates)))
  = rev (map (fun c => Some (suggestedName c)) candidates)
    ++ map declName body
  /\
  List.length (programBody (fst (processCandidates options body candidates)))
  = List.length candidates + List.length body.
Proof.
  pose proof (processCandidates_declNames options body candidates) as H.
  split; [exact H|].
  apply (f_equal (@List.length (option string))) in H.
  rewrite length_app, length_rev, !length_map in H. exact H.
Qed.

Lemma X1_fingerprint_exact_witness :
  noColon (fingerprintTagName (openingElement rowWithText)) = true /\
  noColon (fingerprintTagName (openingElement rowWithExpression)) = true /\
  (computeTreeFingerprint sampleGenerate rowWithText tt
   = computeTreeFingerprint sampleGenerate rowWithExpression tt
   <->
   fingerprintTagName (openingElement rowWithText)
   = fingerprintTagName (openingElement rowWithExpression) /\
   List.length (attributes (openingElement rowWithText))
   = List.length (attributes (openingElement rowWithExpression)) /\
   List.length (children rowWithText) = List.length (children rowWithExpression) /\
   fingerprintClassNames sampleGenerate (attributes (openingElement rowWithText))
   = fingerprintClassNames sampleGenerate
       (attributes (openingElement rowWithExpression))).
Proof.
  split; [reflexivity|]. split; [reflexivity|].
  exact (X1_fingerprint_exact sampleGenerate tt rowWithText rowWithExpression
           eq_refl eq_refl).
Defined.

Lemma X2_returned_fingerprints_witness :
  uniqueRefs (Program twoThenThree) /\
  ((exists c,
      In c (findComponentCandidates sampleGenerate (File (Program twoThenThree))
              noOptions) /\
      fingerprint c = "span:0:0:")
   <->
   (groupOf sampleGenerate DEFAULT_OPTIONS (traverse (Program twoThenThree))
      "span:0:0:" <> [] /\
    2 <= List.length
           (groupOf sampleGenerate DEFAULT_OPTIONS
              (traverse (Program twoThenThree)) "span:0:0:") /\
    forall path parent,
      In path (traverse (Program twoThenThree)) ->
      eligible DEFAULT_OPTIONS path = true ->
      fingerprintOf sampleGenerate DEFAULT_OPTIONS path = "span:0:0:" ->
      parentElement (parentPath path) = Some parent ->
      isCustomComponent parent = false)).
Proof.
  assert (Hu : uniqueRefs (Program twoThenThree)) by distinct_refs.
  split; [exact Hu|].
  exact (X2_returned_fingerprints sampleGenerate (File (Program twoThenThree))
           noOptions "span:0:0:" Hu).
Defined.

Lemma X3_returned_group_fields_witness :
  In paragraphGroup
     (findComponentCandidates sampleGenerate (File (Program twoParagraphs))
        noOptions) /\
  example paragraphGroup = hd_error (occurrences paragraphGroup) /\
  count paragraphGroup = List.length (occurrences paragraphGroup) /\
  1 <= count paragraphGroup /\
  2 <= count paragraphGroup.
Proof.
  assert (Hin : In paragraphGroup
                   (findComponentCandidates sampleGenerate
                      (File (Program twoParagraphs)) noOptions))
    by (vm_compute; left; reflexivity).
  split; [exact Hin|].
  destruct (X3_returned_group_fields sampleGenerate
              (File (Program twoParagraphs)) noOptions paragraphGroup Hin)
    as [_ [Hex [Hcount [Hone [Hmin _]]]]].
  repeat split; assumption.
Defined.

Lemma X5_groups_disjoint_witness :
  uniqueRefs (Program twoThenThree) /\
  In spanGroup
     (findComponentCandidates sampleGenerate (File (Program twoThenThree))
        noOptions) /\
  NoDup (map ref (occurrences spanGroup)).
Proof.
  assert (Hu : uniqueRefs (Program twoThenThree)) by distinct_refs.
  assert (Hin : In spanGroup
                   (findComponentCandidates sampleGenerate
                      (File (Program twoThenThree)) noOptions))
    by (vm_compute; left; reflexivity).
  split; [exact Hu|]. split; [exact Hin|].
  exact (proj1 (X5_groups_disjoint sampleGenerate (File (Program twoThenThree))
                  noOptions Hu) spanGroup Hin).
Defined.

Lemma X6_minRepeats_monotone_witness :
  skipTags (mergeOptions noOptions) = skipTags (mergeOptions atLeastThree) /\
  minRepeats (mergeOptions noOptions) <= minRepeats (mergeOptions atLeastThree) /\
  In {| fingerprint := "span:0:0:";
        occurrences := occurrences spanGroup;
        example := example spanGroup;
        count := 3;
        suggestedName := "Extracted1" |}
     (findComponentCandidates sampleGenerate (File (Program twoThenThree))
        atLeastThree) /\
  exists c1,
    In c1 (findComponentCandidates sampleGenerate (File (Program twoThenThree))
             noOptions) /\
    fingerprint c1 = "span:0:0:" /\
    occurrences c1 = occurrences spanGroup /\
    count c1 = 3.
Proof.
  assert (Hle : minRepeats (mergeOptions noOptions)
                <= minRepeats (mergeOptions atLeastThree))
    by (vm_compute; lia).
  assert (Hin : In {| fingerprint := "span:0:0:";
                      occurrences := occurrences spanGroup;
                      example := example spanGroup;
                      count := 3;
                      suggestedName := "Extracted1" |}
                   (findComponentCandidates sampleGenerate
                      (File (Program twoThenThree)) atLeastThree))
    by (vm_compute; left; reflexivity).
  split; [reflexivity|]. split; [exact Hle|]. split; [exact Hin|].
  exact (X6_minRepeats_monotone sampleGenerate (File (Program twoThenThree))
           noOptions atLeastThree eq_refl Hle _ Hin).
Defined.

Lemma X7_replace_first_occurrence_witness :
  uniqueRefs (Program twoParagraphs) /\
  replaceOccurrencesWithComponent (initialHeap twoParagraphs) paragraphGroup
  = {| programBody := twoParagraphsReplaced;
       detached := [elem 2 "p" [] [JSXText "a"]];
       nextRef := 5 |}
  /\
  uniqueRefs (Program twoParagraphsRewritten) /\
  replaceOccurrencesWithComponent
    {| programBody := twoParagraphsRewritten; detached := []; nextRef := 5 |}
    paragraphGroup
  = {| programBody := twoParagraphsRewritten; detached := []; nextRef := 5 |}.
Proof.
  assert (Hu : uniqueRefs (Program twoParagraphs)) by distinct_refs.
  assert (Hu' : uniqueRefs (Program twoParagraphsRewritten)) by distinct_refs.
  split; [exact Hu|]. split; [|split; [exact Hu'|]].
  - exact (proj2 (proj2 (X7_replace_first_occurrence
                           (initialHeap twoParagraphs) paragraphGroup Hu))).
  - exact (X7_replace_first_occurrence
             {| programBody := twoParagraphsRewritten;
                detached := [];
                nextRef := 5 |}
             paragraphGroup Hu').
Defined.

Lemma X8_statements_without_occurrence_kept_witness :
  nth_error
    (programBody
       {| programBody := Opaque "import React from 'react';" [] :: twoParagraphs;
          detached := [];
          nextRef := 4 |}) 0
  = Some (Opaque "import React from 'react';" []) /\
  nth_error
    (programBody
       (replaceOccurrencesWithComponent
          {| programBody := Opaque "import React from 'react';" [] :: twoParagraphs;
             detached := [];
             nextRef := 4 |}
          paragraphGroup)) 0
  = Some (Opaque "import React from 'react';" []).
Proof.
  split; [reflexivity|].
  apply (X8_statements_without_occurrence_kept
           {| programBody := Opaque "import React from 'react';" [] :: twoParagraphs;
              detached := [];
              nextRef := 4 |}
           paragraphGroup 0 (Opaque "import React from 'react';" []) eq_refl).
  intros e He. simpl in He. contradiction.
Defined.

Lemma X9_declaration_is_new_copy_witness :
  example paragraphGroup = Some (elem 2 "p" [] [JSXText "a"]) /\
  exists clone,
    extractComponentDeclaration (initialHeap twoParagraphs) paragraphGroup
      noOptions
    = (FunctionDeclaration "Extracted1" []
         (BlockStatement [ReturnStatement (Some (JSXElementNode clone))]),
       4 + 1) /\
    stripElement clone = stripElement (elem 2 "p" [] [JSXText "a"]) /\
    map ref (elems (JSXElementNode clone)) = [4].
Proof.
  split; [reflexivity|].
  exact (X9_declaration_is_new_copy (initialHeap twoParagraphs) paragraphGroup
           noOptions (elem 2 "p" [] [JSXText "a"]) eq_refl).
Defined.

Lemma X11_one_declaration_each_witness :
  In spanGroup
     (findComponentCandidates sampleGenerate (File (Program twoThenThree))
        noOptions) /\
  countDeclarations "Extracted2"
    (programBody
       (fst (processCandidates noOptions twoThenThree
               (findComponentCandidates sampleGenerate
                  (File (Program twoThenThree)) noOptions))))
  = S (countDeclarations "Extracted2" twoThenThree).
Proof.
  assert (Hin : In spanGroup
                   (findComponentCandidates sampleGenerate
                      (File (Program twoThenThree)) noOptions))
    by (vm_compute; left; reflexivity).
  split; [exact Hin|].
  exact (X11_one_declaration_each sampleGenerate noOptions twoThenThree
           spanGroup Hin).
Defined.

Lemma X12_declarations_never_rewritten_witness :
  findComponentCandidates sampleGenerate (File (Program twoThenThree)) noOptions
  = [spanGroup] ++ [pGroup] /\
  firstn 1
    (skipn 1
       (programBody
          (fst (processCandidates noOptions twoThenThree
                  ([spanGroup] ++ [pGroup])))))
  = firstn 1
      (programBody (fst (processCandidates noOptions twoThenThree [spanGroup]))).
Proof.
  assert (Hcs : findComponentCandidates sampleGenerate
                  (File (Program twoThenThree)) noOptions
                = [spanGroup] ++ [pGroup])
    by (vm_compute; reflexivity).
  split; [exact Hcs|].
  exact (X12_declarations_never_rewritten sampleGenerate noOptions twoThenThree
           [spanGroup] [pGroup] Hcs).
Defined.

Lemma X13_extractComponents_report_witness :
  (fun _ : string => Return twoParagraphs)
    "const x = <div><p>a</p><p>b</p></div>;"
  = Return twoParagraphs /\
  (exists result,
     extractComponents (fun _ => Return twoParagraphs) sampleGenerate
       "const x = <div><p>a</p><p>b</p></div>;" noOptions
     = Return result /\
     components result
     = map reportOf
           (findComponentCandidates sampleGenerate (File (Program twoParagraphs))
              noOptions) /\
     (changed result = true <-> components result <> []) /\
     (changed result = false ->
      code result = "const x = <div><p>a</p><p>b</p></div>;") /\
     (changed result = true ->
      exists declarations,
        map declName declarations
        = rev (map (fun entry => Some (Extracted.name entry))
                   (components result)) /\
        code result
        = sampleGenerate (File (Program (declarations ++ twoParagraphs)))) /\
     NoDup (map Extracted.name (components result)) /\
     (forall entry, In entry (components result) ->
        1 <= Extracted.count entry /\
        minRepeats (mergeOptions noOptions) <= Extracted.count entry))
  /\
  extractComponents (fun _ => Return functionApp) sampleGenerate
    "function App(){ return <div><p/><span/></div>; }" noOptions
  = Throw scopeError.
Proof.
  split; [reflexivity|]. split.
  - exact (X13_extractComponents_report (fun _ => Return twoParagraphs)
             sampleGenerate "const x = <div><p>a</p><p>b</p></div>;" noOptions
             twoParagraphs eq_refl).
  - exact (X13_extractComponents_report (fun _ => Return functionApp)
             sampleGenerate "function App(){ return <div><p/><span/></div>; }"
             noOptions functionApp eq_refl).
Defined.
